(** * TextComparer: the similarity engine of [services/similarity.py]

    A shallow embedding of the four classes [StylisticFingerprint],
    [JaccardSimilarity], [TfIdfSimilarity] and [TextComparer], followed by
    the properties of the engine.

    Modelling conventions.
    - A Python [str] is a list of Unicode code points ([text := list N]).
    - A Python [float] is a real number: arithmetic is exact, so the
      rounding error of IEEE doubles is not part of this model.  The only
      rounding is the explicit [round(x, ndigits)] of the source, modelled
      as rounding to the nearest multiple of [10^-ndigits], ties to even.
      Two things follow.  Python rounds the double, not the real: when the
      exact value is a decimal tie (1/80 at 3 digits) the last digit can
      differ by one; what is proved below are ranges, the exact values 0 and
      1, and values away from a tie.  And the norm of a normalised vector,
      1 over the reals, is 1 only up to rounding in doubles; the
      normalisation step is therefore given a second time on binary64
      ([normalize64]), where that difference is shown.
    - Operations that raise in Python ([/] by zero, [math.log] outside its
      domain, [math.sqrt] of a negative number, a missing dict key, tuple
      unpacking of the wrong length) return [Raise] in the [result] monad.
    - A Python [set] is a [gset], a [dict] is a [gmap].
    - The Unicode tables behind [\w], [str.isspace] and [str.lower] are
      parameters of the development ([Section Engine]); the ASCII tables
      instantiate them for the concrete scenarios. *)

From Stdlib Require Import Reals Lra Lia ZArith NArith String Ascii.
From stdpp Require Import base decidable list gmap sorting.
From Stdlib Require PrimFloat.

Local Open Scope R_scope.

(** ** Exceptions *)

Inductive exn : Type :=
| ZeroDivisionError
| ValueError
| KeyError.

Inductive result (A : Type) : Type :=
| Ok (a : A)
| Raise (e : exn).
Arguments Ok {A} a.
Arguments Raise {A} e.

#[global] Instance result_ret : MRet result := fun A a => Ok a.
#[global] Instance result_bind : MBind result := fun A B f m =>
  match m with
  | Ok a => f a
  | Raise e => Raise e
  end.

(** [[f(x) for x in l]] where [f] may raise: the first exception wins. *)
Fixpoint list_comp {A B : Type} (f : A -> result B) (l : list A) : result (list B) :=
  match l with
  | [] => Ok []
  | x :: l' => y ← f x; ys ← list_comp f l'; Ok (y :: ys)
  end.

(** ** Numbers *)

(** [x / y] on floats (and on ints, which [/] first converts to float). *)
Definition truediv (x y : R) : result R :=
  if Req_dec_T y 0 then Raise ZeroDivisionError else Ok (x / y).

(** [math.log(x)] *)
Definition math_log (x : R) : result R :=
  if Rlt_dec 0 x then Ok (ln x) else Raise ValueError.

(** [math.sqrt(x)] *)
Definition math_sqrt (x : R) : result R :=
  if Rle_dec 0 x then Ok (sqrt x) else Raise ValueError.

(** [floor x] as an integer. *)
Definition Rfloor (x : R) : Z := (up x - 1)%Z.

(** Nearest integer, ties to the even neighbour. *)
Definition round_half_even (x : R) : Z :=
  let f := Rfloor x in
  let d := x - IZR f in
  if Rlt_dec d (1 / 2) then f
  else if Rlt_dec (1 / 2) d then (f + 1)%Z
  else if Z.even f then f else (f + 1)%Z.

(** [round(x, ndigits)] *)
Definition py_round (x : R) (ndigits : nat) : R :=
  IZR (round_half_even (x * 10 ^ ndigits)) / 10 ^ ndigits.

(** [sum(l)] over floats: from [0], left to right. *)
Definition fsum (l : list R) : R := fold_left Rplus l 0.

(** [max(a, b)]: Python returns the first argument unless the second is
    strictly larger. *)
Definition py_max (a b : R) : R := if Rlt_dec a b then b else a.

(** [len(l)] used as a number. *)
Definition len {A : Type} (l : list A) : R := INR (length l).

(** ** Text *)

Definition char : Type := N.
Definition text : Type := list char.

Definition text_of_string (s : string) : text :=
  map N_of_ascii (list_ascii_of_string s).

(** The character classes written out in the regular expressions. *)
Definition is_sentence_end (c : char) : bool :=
  (c =? 46)%N || (c =? 33)%N || (c =? 63)%N.           (* [.!?] *)

Definition is_punctuation (c : char) : bool :=
  (c =? 44)%N || (c =? 46)%N || (c =? 33)%N || (c =? 63)%N
  || (c =? 59)%N || (c =? 58)%N.                        (* [,.!?;:] *)

(** [re.split(cls, s)]: cut at every character of the class; empty pieces
    are kept.  [cur] is the piece being read, reversed. *)
Fixpoint re_split_from (cls : char -> bool) (s cur : text) : list text :=
  match s with
  | [] => [rev cur]
  | c :: s' =>
      if cls c then rev cur :: re_split_from cls s' []
      else re_split_from cls s' (c :: cur)
  end.

Definition re_split (cls : char -> bool) (s : text) : list text :=
  re_split_from cls s [].

(** The maximal runs of characters of a class, left to right.  This is
    [re.findall(r"\b\w+\b", s)] for the class [\w], and [s.split()] for the
    class of non-space characters. *)
Fixpoint runs_from (cls : char -> bool) (s cur : text) : list text :=
  match s with
  | [] => match cur with [] => [] | _ => [rev cur] end
  | c :: s' =>
      if cls c then runs_from cls s' (c :: cur)
      else match cur with
           | [] => runs_from cls s' []
           | _ => rev cur :: runs_from cls s' []
           end
  end.

Definition runs (cls : char -> bool) (s : text) : list text :=
  runs_from cls s [].

(** [re.findall(cls, s)] for a one-character pattern. *)
Definition findall_chars (cls : char -> bool) (s : text) : text :=
  filter (fun c => Is_true (cls c)) s.

(** Truth value of a sequence: non-empty. *)
Definition truthy {A : Type} (l : list A) : bool :=
  match l with [] => false | _ => true end.

#[global] Instance R_eq_dec : EqDecision R := Req_dec_T.

(** [d[k]] *)
Definition getitem {V : Type} (d : gmap text V) (k : text) : result V :=
  match d !! k with
  | Some v => Ok v
  | None => Raise KeyError
  end.

(** [<] on [str]: lexicographic on code points; [text_leb a b] is [a <= b]. *)
Fixpoint text_leb (a b : text) : bool :=
  match a, b with
  | [], _ => true
  | _ :: _, [] => false
  | x :: a', y :: b' =>
      if (x <? y)%N then true
      else if (x =? y)%N then text_leb a' b' else false
  end.

Definition text_le (a b : text) : Prop := Is_true (text_leb a b).

#[global] Instance text_le_dec : RelDecision text_le.
Proof. intros a b. unfold text_le. apply _. Defined.

(** [sorted(s)] for a set of strings. *)
Definition sorted (s : gset text) : list text := merge_sort text_le (elements s).

(** [l.count(w)] *)
Definition count (w : text) (l : list text) : nat := length (filter (w =.) l).

(** The result of [compare_all]: the dict with keys [stylistic], [jaccard]
    and [tfidf]. *)
Record ComparisonResult : Type := {
  stylistic : R;
  jaccard : R;
  tfidf : R
}.

(** The state of a [TfIdfSimilarity] object. *)
Record TfIdfSimilarity : Type := {
  texts : list text;
  vocab : list text;
  idf : gmap text R
}.

(** The default [epsilon = 1e-8]. *)
Definition epsilon : R := / 100000000.

(** [math.sqrt(sum(x * x for x in vec))] *)
Definition l2norm (vec : list R) : R := sqrt (fsum (map (fun x => x * x) vec)).

(** [[x / norm for x in vec] if norm else vec] *)
Definition normalize (vec : list R) : list R :=
  if decide (l2norm vec ≠ 0) then map (fun x => x / l2norm vec) vec else vec.

(** [sum(a * b for a, b in zip(vec1, vec2))] *)
Definition dot (vec1 vec2 : list R) : R :=
  fsum (map (fun ab => fst ab * snd ab) (zip vec1 vec2)).

(** *** The normalisation step on binary64

    The same three expressions on IEEE doubles, as Python evaluates them:
    [sum] starts from [0] and adds from left to right, and [if norm] holds
    of every double but the two zeros. *)




(** [num / len(l) if l else 0.0] *)
Definition guarded_quotient {A : Type} (l : list A) (num : R) : R :=
  if truthy l then num / len l else 0.

Section Engine.

(** [\w], [str.isspace] and [str.lower]. *)
Variable isword : char -> bool.
Variable isspace : char -> bool.
Variable lower : text -> text.

(** [re.findall(r"\b\w+\b", s)] *)
Definition findall_words (s : text) : list text := runs isword s.

(** [s.split()] *)
Definition split (s : text) : list text := runs (fun c => negb (isspace c)) s.

Fixpoint lstrip (s : text) : text :=
  match s with
  | [] => []
  | c :: s' => if isspace c then lstrip s' else s
  end.

(** [s.strip()] *)
Definition strip (s : text) : text := rev (lstrip (rev (lstrip s))).

(** *** StylisticFingerprint *)

Definition sentences_of (t : text) : list text :=
  map strip (filter (fun s => Is_true (truthy (strip s))) (re_split is_sentence_end t)).

Definition compute_fingerprint (t : text) : result (list R) :=
  let sentences := sentences_of t in
  let words := findall_words (lower t) in
  let punctuation := findall_chars is_punctuation t in
  avg_sentence ←
    (if truthy sentences
     then truediv (INR (sum_list (map (fun s => length (split s)) sentences)))
                  (len sentences)
     else Ok 0);
  avg_word ←
    (if truthy words
     then truediv (INR (sum_list (map length words))) (len words)
     else Ok 0);
  punc_density ←
    (if truthy words then truediv (len punctuation) (len words) else Ok 0);
  lex_div ←
    (if truthy words
     then truediv (INR (size (list_to_set words : gset text))) (len words)
     else Ok 0);
  short_ratio ←
    (if truthy sentences
     then truediv (len (filter (fun s => (length (split s) < 5)%nat) sentences))
                  (len sentences)
     else Ok 0);
  Ok (map (fun x => py_round x 3)
          [avg_sentence; avg_word; punc_density; lex_div; short_ratio]).

(** The five features before rounding: each is a guarded quotient. *)
Definition features (t : text) : list R :=
  let sentences := sentences_of t in
  let words := findall_words (lower t) in
  [ guarded_quotient sentences
      (INR (sum_list (map (fun s => length (split s)) sentences)));
    guarded_quotient words (INR (sum_list (map length words)));
    guarded_quotient words (len (findall_chars is_punctuation t));
    guarded_quotient words (INR (size (list_to_set words : gset text)));
    guarded_quotient sentences
      (len (filter (fun s => (length (split s) < 5)%nat) sentences)) ].

(** One turn of the loop of [compare]. *)
Definition diff_of (eps : R) (ab : R * R) : result R :=
  let '(a, b) := ab in
  if decide (a = 0 ∧ b = 0) then Ok 0
  else truediv (Rabs (a - b)) (py_max a b + eps).

(** [StylisticFingerprint.compare(fp1, fp2, epsilon)] *)
Definition StylisticFingerprint_compare (fp1 fp2 : list R) (eps : R) : result R :=
  diffs ← list_comp (diff_of eps) (zip fp1 fp2);
  score ←
    (if truthy diffs
     then m ← truediv (fsum diffs) (len diffs); Ok (1 - m)
     else Ok 0);
  Ok (py_round score 4).

(** *** JaccardSimilarity *)

Definition JaccardSimilarity_compute (text1 text2 : text) : result R :=
  let set1 : gset text := list_to_set (findall_words (lower text1)) in
  let set2 : gset text := list_to_set (findall_words (lower text2)) in
  let union := set1 ∪ set2 in
  let inter := set1 ∩ set2 in
  if decide (union ≠ ∅)
  then q ← truediv (INR (size inter)) (INR (size union)); Ok (py_round q 4)
  else Ok 0.

(** *** TfIdfSimilarity *)

Definition tokenize (ts : list text) : list (list text) :=
  map (fun t => findall_words (lower t)) ts.

Definition build_vocab (ts : list text) : list text :=
  sorted (list_to_set (concat (tokenize ts))).

(** [df[w]]: in how many texts [w] occurs. *)
Definition doc_freq (ts : list text) (w : text) : nat :=
  length (filter (fun toks => w ∈ toks) (tokenize ts)).

Definition compute_idf (ts : list text) (voc : list text) : result (gmap text R) :=
  let N := length ts in
  let df : gmap text nat := list_to_map (map (fun w => (w, doc_freq ts w)) voc) in
  entries ← list_comp (fun w =>
               d ← getitem df w;
               q ← truediv (INR (N + 1)) (INR (d + 1));
               l ← math_log q;
               Ok (w, l + 1)) voc;
  Ok (list_to_map entries).

(** [TfIdfSimilarity(texts)] *)
Definition TfIdfSimilarity_init (ts : list text) : result TfIdfSimilarity :=
  let voc := build_vocab ts in
  i ← compute_idf ts voc;
  Ok {| texts := ts; vocab := voc; idf := i |}.

(** The weight of the term [w] in a document with tokens [tokens]. *)
Definition weight (self : TfIdfSimilarity) (tokens : list text) (w : text) : result R :=
  let c := count w tokens in
  tf ← (if decide (0 < c)%nat then l ← math_log (INR c); Ok (1 + l) else Ok 0);
  i ← getitem (idf self) w;
  Ok (tf * i).

Definition vector_of (self : TfIdfSimilarity) (t : text) : result (list R) :=
  let tokens := findall_words (lower t) in
  vec ← list_comp (weight self tokens) (vocab self);
  norm ← math_sqrt (fsum (map (fun x => x * x) vec));
  if decide (norm ≠ 0) then list_comp (fun x => truediv x norm) vec else Ok vec.

(** [self.compute_vectors()] *)
Definition compute_vectors (self : TfIdfSimilarity) : result (list (list R)) :=
  list_comp (vector_of self) (texts self).

(** [TfIdfSimilarity.compare(vec1, vec2)] *)
Definition TfIdfSimilarity_compare (vec1 vec2 : list R) : R :=
  let dot := fsum (map (fun ab => fst ab * snd ab) (zip vec1 vec2)) in
  if truthy vec1 && truthy vec2 then py_round dot 4 else 0.

(** *** The numbers the TF-IDF model computes

    Closed forms of the values of [compute_idf] and [compute_vectors], used
    to state what these functions return. *)

(** [math.log((N + 1) / (df[w] + 1)) + 1] *)
Definition idf_value (ts : list text) (w : text) : R :=
  ln (INR (length ts + 1) / INR (doc_freq ts w + 1)) + 1.

(** [1 + math.log(count) if count > 0 else 0.0] *)
Definition tf_value (c : nat) : R :=
  if decide (0 < c)%nat then 1 + ln (INR c) else 0.

(** The vector of a text before normalisation. *)
Definition raw_vector (ts : list text) (t : text) : list R :=
  map (fun w => tf_value (count w (findall_words (lower t))) * idf_value ts w)
      (build_vocab ts).

(** The object built by [TfIdfSimilarity(texts)]. *)
Definition tfidf_model (ts : list text) : TfIdfSimilarity :=
  {| texts := ts;
     vocab := build_vocab ts;
     idf := list_to_map (map (fun w => (w, idf_value ts w)) (build_vocab ts)) |}.

(** *** TextComparer *)

Definition compare_all (text1 text2 : text) : result ComparisonResult :=
  sf1 ← compute_fingerprint text1;
  sf2 ← compute_fingerprint text2;
  style_score ← StylisticFingerprint_compare sf1 sf2 epsilon;
  jaccard_score ← JaccardSimilarity_compute text1 text2;
  model ← TfIdfSimilarity_init [text1; text2];
  vs ← compute_vectors model;
  match vs with
  | [v1; v2] =>
      Ok {| stylistic := style_score;
            jaccard := jaccard_score;
            tfidf := TfIdfSimilarity_compare v1 v2 |}
  | _ => Raise ValueError
  end.

End Engine.

(** ** The character tables on ASCII *)

(** The three tables restricted to code points below 128, where they are
    exact: [\w] is [[0-9A-Za-z_]], [str.isspace] holds of the codes 9 to 13
    and 28 to 32, and [str.lower] moves [A-Z] to [a-z]. *)

Module Ascii.

Definition isword (c : char) : bool :=
  ((48 <=? c) && (c <=? 57) || (65 <=? c) && (c <=? 90)
   || (97 <=? c) && (c <=? 122) || (c =? 95))%N.

Definition isspace (c : char) : bool :=
  ((9 <=? c) && (c <=? 13) || (28 <=? c) && (c <=? 32))%N.

Definition lower (t : text) : text :=
  map (fun c => if ((65 <=? c) && (c <=? 90))%N then (c + 32)%N else c) t.

Definition fingerprint (s : string) : result (list R) :=
  compute_fingerprint isword isspace lower (text_of_string s).

Definition words (s : string) : list text :=
  findall_words isword (lower (text_of_string s)).

Definition compare (s1 s2 : string) : result ComparisonResult :=
  compare_all isword isspace lower (text_of_string s1) (text_of_string s2).

End Ascii.

(** * The accounts: [User] and [AuthService]

    The flat file of the service holds a JSON object from usernames to
    password hashes.  The file system is a finite map from paths to the
    object a file holds; [os.path.exists] is membership.  Reading and writing
    the file are taken to succeed, and a file that exists is taken to hold
    such an object, as [_save_users] writes it.

    [generate_password_hash] and [check_password_hash] come from werkzeug
    and are parameters; the random salt that [generate_password_hash] draws
    is an argument. *)

Record User : Type := {
  username : text;
  password_hash : text
}.

Record AuthService : Type := {
  file_path : text;
  _users : gmap text User
}.

(** The default [file_path = 'users.json']. *)
Definition users_json : text := text_of_string "users.json".

Section Accounts.

Variable generate_password_hash : text -> nat -> text.
Variable check_password_hash : text -> text -> bool.

(** [self._load_users()]: the users of the file are added to [self._users];
    a missing file is created, holding the empty object. *)
Definition _load_users (self : AuthService) (fs : gmap text (gmap text text))
  : AuthService * gmap text (gmap text text) :=
  match fs !! file_path self with
  | Some data =>
      ({| file_path := file_path self;
          _users := map_imap (fun u h => Some {| username := u; password_hash := h |}) data
                    ∪ _users self |},
       fs)
  | None => (self, <[file_path self := ∅]> fs)
  end.

(** [AuthService(file_path)] *)
Definition AuthService_init (path : text) (fs : gmap text (gmap text text))
  : AuthService * gmap text (gmap text text) :=
  _load_users {| file_path := path; _users := ∅ |} fs.

(** [self._save_users()] *)
Definition _save_users (self : AuthService) (fs : gmap text (gmap text text))
  : gmap text (gmap text text) :=
  <[file_path self := password_hash <$> _users self]> fs.

(** [self.register(username, password)] *)
Definition register (self : AuthService) (name password : text) (salt : nat)
    (fs : gmap text (gmap text text))
  : bool * AuthService * gmap text (gmap text text) :=
  if decide (is_Some (_users self !! name)) then (false, self, fs)
  else
    let pw_hash := generate_password_hash password salt in
    let self' := {| file_path := file_path self;
                    _users := <[name := {| username := name; password_hash := pw_hash |}]>
                                (_users self) |} in
    (true, self', _save_users self' fs).

(** [self.authenticate(username, password)] *)
Definition authenticate (self : AuthService) (name password : text) : bool :=
  match _users self !! name with
  | None => false
  | Some user => check_password_hash (password_hash user) password
  end.

End Accounts.

(** The service and its file agree: the file holds the hash of every user,
    and every user is stored under its own name. *)
Definition saved (self : AuthService) (fs : gmap text (gmap text text)) : Prop :=
  fs !! file_path self = Some (password_hash <$> _users self)
  /\ forall u x, _users self !! u = Some x -> username x = u.

(** * The web application: [main.py]

    One client talks to the application.  The state is the session of the
    client, the global [auth_service] and the disk.  A request brings its
    method, its form fields and its uploaded files; the salt drawn by a
    registration and the clock read by a comparison come with it.  A view
    returns what Flask is asked to send: a redirect to an endpoint or a
    template with its arguments.  [request.form[key]] on a missing key is the
    response 400. *)

(** An uploaded file, [werkzeug.FileStorage]: it is true when its filename
    is not empty. *)
Record FileStorage : Type := {
  filename : text;
  content : list Byte.byte
}.

Record Request : Type := {
  method : text;
  form : gmap text text;
  files : gmap text FileStorage
}.

Record Env : Type := {
  salt : nat;          (* drawn by [generate_password_hash] *)
  generated : text     (* [datetime.datetime.now().strftime(...)] *)
}.

Record App : Type := {
  session : gmap text text;
  auth_service : AuthService;
  disk : gmap text (gmap text text)
}.

Inductive Message : Type :=
| user_exists         (* the error of [register] *)
| bad_credentials.    (* the error of [login] *)

Inductive Response : Type :=
| redirect (endpoint : string)
| render_register (error : option Message)
| render_login (error : option Message)
| render_index (result : option (ComparisonResult * text))
| bad_request
| method_not_allowed
| options_response
| server_error (e : exn).

Inductive Route : Type :=
| route_register     (* '/register', GET and POST *)
| route_login        (* '/login', GET and POST *)
| route_logout       (* '/logout', GET *)
| route_compare.     (* '/', GET and POST *)

Definition GET : text := text_of_string "GET".
Definition HEAD : text := text_of_string "HEAD".
Definition POST : text := text_of_string "POST".
Definition OPTIONS : text := text_of_string "OPTIONS".
Definition key_user : text := text_of_string "user".
Definition key_email : text := text_of_string "email".
Definition key_password : text := text_of_string "password".

(** The methods a rule lets through to its view; [HEAD] goes with [GET]. *)
Definition allowed (rt : Route) (m : text) : bool :=
  bool_decide (m = GET) || bool_decide (m = HEAD)
  || match rt with
     | route_logout => false
     | _ => bool_decide (m = POST)
     end.

Section WebApp.

Variable isword : char -> bool.
Variable isspace : char -> bool.
Variable lower : text -> text.
Variable generate_password_hash : text -> nat -> text.
Variable check_password_hash : text -> text -> bool.
(** [bytes.decode('utf-8', errors='ignore')] *)
Variable decode : list Byte.byte -> text.

(** [login_required(f)] *)
Definition login_required (f : Request -> Env -> App -> Response * App)
    (req : Request) (env : Env) (st : App) : Response * App :=
  if decide (session st !! key_user = None) then (redirect "login", st)
  else f req env st.

(** The view [register] *)
Definition register_view (req : Request) (env : Env) (st : App) : Response * App :=
  if decide (method req = POST) then
    match form req !! key_email with
    | None => (bad_request, st)
    | Some email =>
        match form req !! key_password with
        | None => (bad_request, st)
        | Some password =>
            let '(ok, service, disk') :=
              register generate_password_hash (auth_service st) email password
                       (salt env) (disk st) in
            if ok then
              (redirect "compare",
               {| session := <[key_user := email]> (session st);
                  auth_service := service;
                  disk := disk' |})
            else
              (render_register (Some user_exists),
               {| session := session st; auth_service := service; disk := disk' |})
        end
    end
  else (render_register None, st).

(** The view [login] *)
Definition login_view (req : Request) (env : Env) (st : App) : Response * App :=
  if decide (method req = POST) then
    match form req !! key_email with
    | None => (bad_request, st)
    | Some email =>
        match form req !! key_password with
        | None => (bad_request, st)
        | Some password =>
            if authenticate check_password_hash (auth_service st) email password then
              (redirect "compare",
               {| session := <[key_user := email]> (session st);
                  auth_service := auth_service st;
                  disk := disk st |})
            else (render_login (Some bad_credentials), st)
        end
    end
  else (render_login None, st).

(** The view [logout]: [session.pop('user', None)] *)
Definition logout_view (req : Request) (env : Env) (st : App) : Response * App :=
  (redirect "login",
   {| session := delete key_user (session st);
      auth_service := auth_service st;
      disk := disk st |}).

(** One side of the comparison: the uploaded file when there is one with a
    filename, the form field otherwise, [''] when the field is missing. *)
Definition submitted (file_key text_key : text) (req : Request) : text :=
  match files req !! file_key with
  | Some file =>
      if truthy (filename file) then decode (content file)
      else default [] (form req !! text_key)
  | None => default [] (form req !! text_key)
  end.

(** The view [compare], under the decorator *)
Definition compare_body (req : Request) (env : Env) (st : App) : Response * App :=
  if decide (method req = POST) then
    let text1 := submitted (text_of_string "file1") (text_of_string "text1") req in
    let text2 := submitted (text_of_string "file2") (text_of_string "text2") req in
    match compare_all isword isspace lower text1 text2 with
    | Ok result => (render_index (Some (result, generated env)), st)
    | Raise e => (server_error e, st)
    end
  else (render_index None, st).

Definition compare_view : Request -> Env -> App -> Response * App :=
  login_required compare_body.

(** What the application does with a request for a route. *)
Definition handle (rt : Route) (req : Request) (env : Env) (st : App) : Response * App :=
  if decide (method req = OPTIONS) then (options_response, st)
  else if allowed rt (method req) then
    match rt with
    | route_register => register_view req env st
    | route_login => login_view req env st
    | route_logout => logout_view req env st
    | route_compare => compare_view req env st
    end
  else (method_not_allowed, st).

(** The state after a sequence of requests. *)
Definition serve (reqs : list (Route * Request * Env)) (st : App) : App :=
  foldl (fun st r => (handle r.1.1 r.1.2 r.2 st).2) st reqs.

(** The application when it starts: no session, [auth_service = AuthService()]. *)
Definition start (fs : gmap text (gmap text text)) : App :=
  {| session := ∅;
     auth_service := (AuthService_init users_json fs).1;
     disk := (AuthService_init users_json fs).2 |}.

End WebApp.

(** The two facts every sequence of requests keeps: the client is logged in
    as a registered user, and the service agrees with its file. *)
Definition sound (st : App) : Prop :=
  (forall u, session st !! key_user = Some u -> is_Some (_users (auth_service st) !! u))
  /\ saved (auth_service st) (disk st).

(** * Sample values for the instances

    The identity stands in for the password hash and the bytes of a file
    are read as code points; a form with an email and a password, and a
    plain visit. *)

Module Demo.

Definition hash (p : text) (n : nat) : text := p.
Definition check (h p : text) : bool := bool_decide (h = p).
Definition decode (b : list Byte.byte) : text := map Byte.to_N b.

Definition ann : text := text_of_string "ann@example.org".
Definition secret : text := text_of_string "secret".

Definition credentials : Request :=
  {| method := POST;
     form := <[key_email := ann]> (<[key_password := secret]> ∅);
     files := ∅ |}.

Definition visit : Request := {| method := GET; form := ∅; files := ∅ |}.

Definition env0 : Env :=
  {| salt := 0; generated := text_of_string "2025-01-01 00:00:00" |}.

(** The service with the one user [ann], and the application with [ann]
    logged in. *)
Definition service : AuthService :=
  {| file_path := users_json;
     _users := {[ ann := {| username := ann; password_hash := secret |} ]} |}.

Definition logged_in : App :=
  {| session := {[ key_user := ann ]};
     auth_service := service;
     disk := {[ users_json := {[ ann := secret ]} ]} |}.

Definition handle : Route -> Request -> Env -> App -> Response * App :=
  handle Ascii.isword Ascii.isspace Ascii.lower hash check decode.

Definition serve : list (Route * Request * Env) -> App -> App :=
  serve Ascii.isword Ascii.isspace Ascii.lower hash check decode.

End Demo.

(** * Properties *)

(** ** Rounding *)

Lemma Rfloor_spec (x : R) : IZR (Rfloor x) <= x < IZR (Rfloor x) + 1.
Proof.
  unfold Rfloor. rewrite minus_IZR.
  destruct (archimed x) as [Hlt Hle]. lra.
Qed.

Lemma round_half_even_dist (x : R) :
  IZR (round_half_even x) - 1 / 2 <= x <= IZR (round_half_even x) + 1 / 2.
Proof.
  unfold round_half_even.
  pose proof (Rfloor_spec x) as Hf.
  destruct (Rlt_dec _ _) as [H1 | H1]; [lra |].
  destruct (Rlt_dec _ _) as [H2 | H2]; [rewrite plus_IZR; lra |].
  destruct (Z.even _); [| rewrite plus_IZR]; lra.
Qed.

(** An integer on one side of [x] stays on that side of the rounded value. *)
Lemma round_half_even_ge (x : R) (z : Z) : IZR z <= x -> (z <= round_half_even x)%Z.
Proof.
  intros Hz. pose proof (round_half_even_dist x) as Hd.
  assert (IZR z < IZR (round_half_even x + 1)) as Hlt by (rewrite plus_IZR; lra).
  apply lt_IZR in Hlt. lia.
Qed.

Lemma round_half_even_le (x : R) (z : Z) : x <= IZR z -> (round_half_even x <= z)%Z.
Proof.
  intros Hz. pose proof (round_half_even_dist x) as Hd.
  assert (IZR (round_half_even x) < IZR (z + 1)) as Hlt by (rewrite plus_IZR; lra).
  apply lt_IZR in Hlt. lia.
Qed.

Lemma round_half_even_IZR (z : Z) : round_half_even (IZR z) = z.
Proof.
  apply Z.le_antisymm.
  - apply round_half_even_le. lra.
  - apply round_half_even_ge. lra.
Qed.

(** A value strictly closer to [z] than one half rounds to [z]. *)
Lemma round_half_even_near (x : R) (z : Z) :
  IZR z - 1 / 2 < x < IZR z + 1 / 2 -> round_half_even x = z.
Proof.
  intros [Hlo Hhi]. pose proof (round_half_even_dist x) as Hd.
  assert (IZR (round_half_even x) < IZR (z + 1)) as H1 by (rewrite plus_IZR; lra).
  assert (IZR z < IZR (round_half_even x + 1)) as H2 by (rewrite plus_IZR; lra).
  apply lt_IZR in H1, H2. lia.
Qed.

Lemma pow10_pos (n : nat) : 0 < 10 ^ n.
Proof. apply pow_lt. lra. Qed.

Lemma py_round_IZR (z : Z) (n : nat) : py_round (IZR z) n = IZR z.
Proof.
  unfold py_round. pose proof (pow10_pos n) as Hp.
  assert (10 ^ n = IZR (10 ^ Z.of_nat n)) as Hpow by now rewrite <- pow_IZR.
  rewrite Hpow in *.
  rewrite <- mult_IZR, round_half_even_IZR, mult_IZR. field. lra.
Qed.

Lemma py_round_near (x : R) (z : Z) (n : nat) :
  IZR z - 1 / 2 < x * 10 ^ n < IZR z + 1 / 2 -> py_round x n = IZR z / 10 ^ n.
Proof. intros H. unfold py_round. now rewrite (round_half_even_near _ z). Qed.

(** Rounding keeps a value of the unit interval in the unit interval. *)
Lemma py_round_unit (x : R) (n : nat) : 0 <= x <= 1 -> 0 <= py_round x n <= 1.
Proof.
  intros [H0 H1]. unfold py_round. pose proof (pow10_pos n) as Hp.
  assert (10 ^ n = IZR (10 ^ Z.of_nat n)) as Hpow by now rewrite <- pow_IZR.
  assert (0 <= round_half_even (x * 10 ^ n))%Z as Hlo.
  { apply round_half_even_ge. nra. }
  assert (round_half_even (x * 10 ^ n) <= 10 ^ Z.of_nat n)%Z as Hhi.
  { apply round_half_even_le. rewrite <- Hpow. nra. }
  apply IZR_le in Hlo, Hhi. rewrite <- Hpow in Hhi.
  split.
  - apply Rmult_le_pos; [lra | left; now apply Rinv_0_lt_compat].
  - apply Rmult_le_reg_r with (10 ^ n); [lra |].
    unfold Rdiv. rewrite Rmult_assoc, Rinv_l; lra.
Qed.

Lemma py_round_0 (n : nat) : py_round 0 n = 0.
Proof. apply (py_round_IZR 0). Qed.

Lemma py_round_1 (n : nat) : py_round 1 n = 1.
Proof. apply (py_round_IZR 1). Qed.

Lemma py_round_nonneg (x : R) (n : nat) : 0 <= x -> 0 <= py_round x n.
Proof.
  intros Hx. unfold py_round. pose proof (pow10_pos n) as Hp.
  assert (0 <= round_half_even (x * 10 ^ n))%Z as Hlo.
  { apply round_half_even_ge. nra. }
  apply IZR_le in Hlo.
  apply Rmult_le_pos; [lra | left; now apply Rinv_0_lt_compat].
Qed.

(** ** Sums *)

Lemma fold_left_Rplus (l : list R) (a : R) :
  fold_left Rplus l a = a + fold_left Rplus l 0.
Proof.
  revert a. induction l as [| x l IH]; intros a; simpl; [ring |].
  rewrite (IH (a + x)), (IH (0 + x)). ring.
Qed.

Lemma fsum_nil : fsum [] = 0.
Proof. reflexivity. Qed.

Lemma fsum_cons (x : R) (l : list R) : fsum (x :: l) = x + fsum l.
Proof. unfold fsum. simpl. rewrite fold_left_Rplus. ring. Qed.

(** ** Operations that cannot raise *)

Lemma truediv_ok (x y : R) : y <> 0 -> truediv x y = Ok (x / y).
Proof. intros Hy. unfold truediv. now destruct (Req_dec_T y 0). Qed.

Lemma math_log_ok (x : R) : 0 < x -> math_log x = Ok (ln x).
Proof. intros Hx. unfold math_log. now destruct (Rlt_dec 0 x). Qed.

Lemma math_sqrt_ok (x : R) : 0 <= x -> math_sqrt x = Ok (sqrt x).
Proof. intros Hx. unfold math_sqrt. now destruct (Rle_dec 0 x). Qed.

Lemma truthy_len {A : Type} (l : list A) : truthy l = true -> 0 < len l.
Proof.
  destruct l as [| a l]; [discriminate |]. intros _.
  unfold len. apply lt_0_INR. simpl. lia.
Qed.

Lemma len_nonneg {A : Type} (l : list A) : 0 <= len l.
Proof. apply pos_INR. Qed.

Lemma bind_Ok {A B : Type} (a : A) (f : A -> result B) : (x ← Ok a; f x) = f a.
Proof. reflexivity. Qed.

(** A comprehension whose body never raises is a [map]. *)
Lemma list_comp_ok {A B : Type} (f : A -> result B) (g : A -> B) (l : list A) :
  (forall x, x ∈ l -> f x = Ok (g x)) -> list_comp f l = Ok (map g l).
Proof.
  induction l as [| x l IH]; intros Hf; [reflexivity |].
  simpl. rewrite Hf by left. simpl.
  rewrite IH; [reflexivity |]. intros y Hy. apply Hf. now right.
Qed.

Lemma list_comp_cons {A B : Type} (f : A -> result B) (x : A) (l : list A) :
  list_comp f (x :: l) = (y ← f x; ys ← list_comp f l; Ok (y :: ys)).
Proof. reflexivity. Qed.

Lemma zip_cons {A B : Type} (a : A) (b : B) (l : list A) (k : list B) :
  zip (a :: l) (b :: k) = (a, b) :: zip l k.
Proof. reflexivity. Qed.

Lemma list_comp_length {A B : Type} (f : A -> result B) (l : list A) (r : list B) :
  list_comp f l = Ok r -> length r = length l.
Proof.
  revert r. induction l as [| x l IH]; intros r; simpl.
  - intros [= <-]. reflexivity.
  - destruct (f x) as [y | e]; simpl; [| discriminate].
    destruct (list_comp f l) as [ys | e]; simpl; [| discriminate].
    intros [= <-]. simpl. f_equal. now apply IH.
Qed.

Lemma guarded_truediv {A : Type} (l : list A) (num : R) :
  (if truthy l then truediv num (len l) else Ok 0) = Ok (guarded_quotient l num).
Proof.
  unfold guarded_quotient. destruct (truthy l) eqn:Hl; [| reflexivity].
  apply truediv_ok. apply truthy_len in Hl. lra.
Qed.

Lemma guarded_quotient_nonneg {A : Type} (l : list A) (num : R) :
  0 <= num -> 0 <= guarded_quotient l num.
Proof.
  intros Hn. unfold guarded_quotient. destruct (truthy l) eqn:Hl; [| lra].
  apply truthy_len in Hl. apply Rmult_le_pos; [lra |].
  left. now apply Rinv_0_lt_compat.
Qed.

Lemma guarded_quotient_nil {A : Type} (num : R) : guarded_quotient (@nil A) num = 0.
Proof. reflexivity. Qed.

Section EngineProperties.

Variable isword : char -> bool.
Variable isspace : char -> bool.
Variable lower : text -> text.

Local Abbreviation words t := (findall_words isword (lower t)).
Local Abbreviation sentences t := (sentences_of isspace t).
Local Abbreviation fingerprint t := (compute_fingerprint isword isspace lower t).
Local Abbreviation features_of t := (features isword isspace lower t).

(** ** StylisticFingerprint *)

(** [_compute_fingerprint] never raises: every division is guarded. *)
Lemma compute_fingerprint_ok (t : text) :
  fingerprint t = Ok (map (fun x => py_round x 3) (features_of t)).
Proof.
  unfold compute_fingerprint, features.
  repeat (rewrite guarded_truediv; simpl).
  reflexivity.
Qed.

Lemma features_nonneg (t : text) : Forall (fun x => 0 <= x) (features_of t).
Proof.
  unfold features.
  repeat (apply Forall_cons; split; [apply guarded_quotient_nonneg; apply pos_INR |]).
  apply Forall_nil. exact I.
Qed.

Lemma fingerprint_nonneg (t : text) (fp : list R) :
  fingerprint t = Ok fp -> length fp = 5%nat /\ Forall (fun x => 0 <= x) fp.
Proof.
  rewrite compute_fingerprint_ok. intros Hfp.
  assert (fp = map (fun x => py_round x 3) (features_of t)) as -> by congruence.
  split; [reflexivity |].
  apply Forall_fmap. eapply Forall_impl; [apply features_nonneg |].
  intros x Hx. simpl. now apply py_round_nonneg.
Qed.


Lemma epsilon_pos : 0 < epsilon.
Proof. unfold epsilon. apply Rinv_0_lt_compat. lra. Qed.

Lemma py_max_sym (a b : R) : py_max a b = py_max b a.
Proof. unfold py_max. repeat destruct (Rlt_dec _ _); lra. Qed.

Lemma py_max_ge (a b : R) : a <= py_max a b /\ b <= py_max a b.
Proof. unfold py_max. destruct (Rlt_dec _ _); lra. Qed.

Lemma diff_of_sym (eps a b : R) : diff_of eps (a, b) = diff_of eps (b, a).
Proof.
  unfold diff_of.
  destruct (decide (a = 0 ∧ b = 0)) as [H1 | H1];
    destruct (decide (b = 0 ∧ a = 0)) as [H2 | H2]; try tauto.
  now rewrite Rabs_minus_sym, py_max_sym.
Qed.

Lemma diffs_sym (eps : R) (fp1 fp2 : list R) :
  list_comp (diff_of eps) (zip fp1 fp2) = list_comp (diff_of eps) (zip fp2 fp1).
Proof.
  revert fp2. induction fp1 as [| a fp1 IH]; intros [| b fp2]; try reflexivity.
  now rewrite !zip_cons, !list_comp_cons, diff_of_sym, IH.
Qed.

(** [compare] is symmetric, whatever it returns. *)
Lemma StylisticFingerprint_compare_sym (fp1 fp2 : list R) (eps : R) :
  StylisticFingerprint_compare fp1 fp2 eps = StylisticFingerprint_compare fp2 fp1 eps.
Proof. unfold StylisticFingerprint_compare. now rewrite diffs_sym. Qed.

(** On non-negative components a positional difference is in [0, 1). *)
Lemma diff_of_unit (eps a b : R) :
  0 < eps -> 0 <= a -> 0 <= b ->
  exists d, diff_of eps (a, b) = Ok d /\ 0 <= d < 1.
Proof.
  intros He Ha Hb. unfold diff_of.
  destruct (decide (a = 0 ∧ b = 0)) as [H0 | H0]; [exists 0; split; [reflexivity | lra] |].
  pose proof (py_max_ge a b) as [Hma Hmb].
  assert (0 < py_max a b + eps) as Hden by lra.
  exists (Rabs (a - b) / (py_max a b + eps)). split.
  - apply truediv_ok. lra.
  - assert (0 <= Rabs (a - b) <= py_max a b) as [Hn Hm].
    { split; [apply Rabs_pos |]. unfold Rabs. destruct (Rcase_abs _); lra. }
    split.
    + apply Rmult_le_pos; [lra | left; now apply Rinv_0_lt_compat].
    + apply Rmult_lt_reg_r with (py_max a b + eps); [lra |].
      unfold Rdiv. rewrite Rmult_assoc, Rinv_l; lra.
Qed.

Lemma diffs_unit (eps : R) (fp1 fp2 : list R) :
  0 < eps -> Forall (fun x => 0 <= x) fp1 -> Forall (fun x => 0 <= x) fp2 ->
  exists ds, list_comp (diff_of eps) (zip fp1 fp2) = Ok ds
             /\ Forall (fun d => 0 <= d < 1) ds.
Proof.
  intros He H1. revert fp2. induction H1 as [| a fp1 Ha H1 IH]; intros fp2 H2.
  - exists []. split; [reflexivity | constructor].
  - destruct H2 as [| b fp2 Hb H2]; [exists []; split; [reflexivity | constructor] |].
    destruct (diff_of_unit eps a b He Ha Hb) as (d & Hd & Hdu).
    destruct (IH fp2 H2) as (ds & Hds & Hdsu).
    exists (d :: ds). split; [| now constructor].
    now rewrite zip_cons, list_comp_cons, Hd, Hds.
Qed.

Lemma fsum_unit (ds : list R) :
  Forall (fun d => 0 <= d < 1) ds -> 0 <= fsum ds <= len ds.
Proof.
  induction 1 as [| d ds Hd Hds IH]; unfold len in *.
  - unfold fsum. simpl. lra.
  - rewrite fsum_cons.
    change (length (d :: ds)) with (S (length ds)). rewrite S_INR. lra.
Qed.

(** The score of two vectors of non-negative components is produced and
    lies in the unit interval. *)
Lemma StylisticFingerprint_compare_unit (fp1 fp2 : list R) (eps : R) :
  0 < eps -> Forall (fun x => 0 <= x) fp1 -> Forall (fun x => 0 <= x) fp2 ->
  exists s, StylisticFingerprint_compare fp1 fp2 eps = Ok s /\ 0 <= s <= 1.
Proof.
  intros He H1 H2. unfold StylisticFingerprint_compare.
  destruct (diffs_unit eps fp1 fp2 He H1 H2) as (ds & -> & Hds). simpl.
  destruct (truthy ds) eqn:Hne.
  - pose proof (truthy_len ds Hne) as Hlen.
    pose proof (fsum_unit ds Hds) as [Hs0 Hs1].
    rewrite truediv_ok by lra. simpl.
    eexists. split; [reflexivity |]. apply py_round_unit.
    assert (0 <= fsum ds / len ds <= 1) as [Hq0 Hq1]; [| lra].
    split.
    + apply Rmult_le_pos; [lra | left; now apply Rinv_0_lt_compat].
    + apply Rmult_le_reg_r with (len ds); [lra |].
      unfold Rdiv. rewrite Rmult_assoc, Rinv_l; lra.
  - simpl. exists (py_round 0 4). split; [reflexivity |]. rewrite py_round_0. lra.
Qed.

Lemma diffs_same (eps : R) (fp : list R) :
  0 < eps -> Forall (fun x => 0 <= x) fp ->
  list_comp (diff_of eps) (zip fp fp) = Ok (map (fun _ => 0) fp).
Proof.
  intros He. induction 1 as [| a fp Ha Hfp IH]; [reflexivity |].
  rewrite zip_cons, list_comp_cons, IH.
  assert (diff_of eps (a, a) = Ok 0) as ->; [| reflexivity].
  unfold diff_of. destruct (decide _); [reflexivity |].
  pose proof (py_max_ge a a) as [Hm _].
  rewrite truediv_ok by lra. f_equal.
  replace (a - a) with 0 by lra. rewrite Rabs_R0. unfold Rdiv. lra.
Qed.

Lemma fsum_zeros {A : Type} (l : list A) : fsum (map (fun _ => 0) l) = 0.
Proof.
  induction l as [| x l IH]; [reflexivity |]. rewrite map_cons, fsum_cons, IH. ring.
Qed.

(** A non-empty vector of non-negative components compared with itself
    scores 1. *)
Lemma StylisticFingerprint_compare_same (fp : list R) (eps : R) :
  0 < eps -> Forall (fun x => 0 <= x) fp -> fp <> [] ->
  StylisticFingerprint_compare fp fp eps = Ok 1.
Proof.
  intros He Hfp Hne. unfold StylisticFingerprint_compare.
  rewrite diffs_same by assumption. simpl.
  destruct fp as [| a fp]; [congruence |]. simpl truthy. cbv iota.
  rewrite truediv_ok by (apply Rgt_not_eq, lt_0_INR; simpl; lia).
  rewrite !bind_Ok, fsum_zeros. f_equal.
  replace (1 - 0 / len (map (fun _ => 0) (a :: fp))) with 1 by (unfold Rdiv; ring).
  apply py_round_1.
Qed.

(** ** JaccardSimilarity *)

Lemma JaccardSimilarity_compute_sym (a b : text) :
  JaccardSimilarity_compute isword lower a b = JaccardSimilarity_compute isword lower b a.
Proof.
  unfold JaccardSimilarity_compute.
  rewrite (comm_L (∪) (list_to_set (words a) : gset text)).
  rewrite (comm_L (∩) (list_to_set (words a) : gset text)).
  reflexivity.
Qed.

Lemma gset_size_pos (s : gset text) : s ≠ ∅ -> 0 < INR (size s).
Proof.
  intros Hne. apply lt_0_INR.
  destruct (decide (size s = 0)%nat) as [H0 | H0]; [| lia].
  apply size_empty_inv, leibniz_equiv in H0. contradiction.
Qed.

Lemma JaccardSimilarity_compute_unit (a b : text) :
  exists j, JaccardSimilarity_compute isword lower a b = Ok j /\ 0 <= j <= 1.
Proof.
  unfold JaccardSimilarity_compute.
  set (s1 := list_to_set (words a) : gset text).
  set (s2 := list_to_set (words b) : gset text).
  destruct (decide (s1 ∪ s2 ≠ ∅)) as [Hne | He].
  - pose proof (gset_size_pos _ Hne) as Hpos.
    assert (size (s1 ∩ s2) <= size (s1 ∪ s2))%nat as Hle.
    { apply subseteq_size. intros x Hx.
      apply elem_of_intersection in Hx as [Hx _]. apply elem_of_union. now left. }
    apply le_INR in Hle. pose proof (pos_INR (size (s1 ∩ s2))) as Hin.
    rewrite truediv_ok by lra. simpl.
    eexists. split; [reflexivity |]. apply py_round_unit. split.
    + apply Rmult_le_pos; [lra | left; now apply Rinv_0_lt_compat].
    + apply Rmult_le_reg_r with (INR (size (s1 ∪ s2))); [lra |].
      unfold Rdiv. rewrite Rmult_assoc, Rinv_l; lra.
  - exists 0. split; [reflexivity | lra].
Qed.

Lemma list_to_set_nonempty (l : list text) :
  l <> [] -> (list_to_set l : gset text) ≠ ∅.
Proof.
  destruct l as [| w l]; [congruence |]. intros _ He.
  assert (w ∈ (list_to_set (w :: l) : gset text)) as Hin by set_solver.
  rewrite He in Hin. set_solver.
Qed.

Lemma list_to_set_empty (l : list text) :
  (list_to_set l : gset text) = ∅ -> l = [].
Proof.
  intros He. destruct l as [| w l]; [reflexivity |].
  now destruct (list_to_set_nonempty (w :: l)).
Qed.

(** A text with a word token against itself: intersection and union
    coincide. *)
Lemma JaccardSimilarity_compute_same (t : text) :
  words t <> [] -> JaccardSimilarity_compute isword lower t t = Ok 1.
Proof.
  intros Hw. unfold JaccardSimilarity_compute.
  rewrite union_idemp_L, intersection_idemp_L.
  pose proof (list_to_set_nonempty _ Hw) as Hne.
  destruct (decide _) as [_ | Hn]; [| contradiction].
  pose proof (gset_size_pos _ Hne) as Hpos.
  rewrite truediv_ok by lra. simpl. f_equal.
  unfold Rdiv. rewrite Rinv_r by lra. apply py_round_1.
Qed.

(** No word token on either side: the guard returns [0.0]. *)
Lemma JaccardSimilarity_compute_nowords (a b : text) :
  words a = [] -> words b = [] -> JaccardSimilarity_compute isword lower a b = Ok 0.
Proof.
  intros Ha Hb. unfold JaccardSimilarity_compute. rewrite Ha, Hb. simpl.
  destruct (decide _) as [Hne | _]; [| reflexivity].
  exfalso. apply Hne. set_solver.
Qed.

(** ** TfIdfSimilarity *)

Lemma elem_of_sorted (s : gset text) (w : text) : w ∈ sorted s <-> w ∈ s.
Proof. unfold sorted. now rewrite merge_sort_Permutation, elem_of_elements. Qed.

Lemma sorted_length (s : gset text) : length (sorted s) = size s.
Proof. unfold sorted. now rewrite merge_sort_Permutation. Qed.

Lemma elem_of_build_vocab (ts : list text) (w : text) :
  w ∈ build_vocab isword lower ts <-> exists t, t ∈ ts /\ w ∈ words t.
Proof.
  unfold build_vocab, tokenize.
  rewrite elem_of_sorted, elem_of_list_to_set, list_elem_of_In, in_concat. split.
  - intros (toks & Ht & Hw). apply list_elem_of_In in Ht, Hw.
    apply list_elem_of_fmap in Ht as (t & -> & Ht). eauto.
  - intros (t & Ht & Hw). exists (words t). rewrite <- !list_elem_of_In.
    split; [| assumption]. apply list_elem_of_fmap. eauto.
Qed.

(** A dict comprehension over a list of keys, looked up at one of them. *)
Lemma lookup_comprehension {V : Type} (f : text -> V) (l : list text) (w : text) :
  w ∈ l -> (list_to_map (map (fun k => (k, f k)) l) : gmap text V) !! w = Some (f w).
Proof.
  induction l as [| k l IH]; intros Hw; [now apply not_elem_of_nil in Hw |].
  simpl. destruct (decide (k = w)) as [-> | Hne].
  - apply lookup_insert_eq.
  - rewrite lookup_insert_ne by assumption. apply IH.
    apply elem_of_cons in Hw as [-> | Hw]; [congruence | assumption].
Qed.

Lemma getitem_comprehension {V : Type} (f : text -> V) (l : list text) (w : text) :
  w ∈ l -> getitem (list_to_map (map (fun k => (k, f k)) l)) w = Ok (f w).
Proof. intros Hw. unfold getitem. now rewrite lookup_comprehension. Qed.

(** [_compute_idf] never raises: [df[w] + 1] is at least 1 and the quotient
    is positive. *)
Lemma compute_idf_ok (ts voc : list text) :
  compute_idf isword lower ts voc
  = Ok (list_to_map (map (fun w => (w, idf_value isword lower ts w)) voc)).
Proof.
  unfold compute_idf.
  rewrite (list_comp_ok _ (fun w => (w, idf_value isword lower ts w))); [reflexivity |].
  intros w Hw. rewrite getitem_comprehension by assumption. simpl.
  assert (0 < INR (doc_freq isword lower ts w + 1)) as Hd by (apply lt_0_INR; lia).
  assert (0 < INR (length ts + 1)) as Hn by (apply lt_0_INR; lia).
  rewrite truediv_ok by lra. simpl.
  rewrite math_log_ok; [reflexivity |].
  apply Rmult_lt_0_compat; [lra | now apply Rinv_0_lt_compat].
Qed.

Lemma TfIdfSimilarity_init_ok (ts : list text) :
  TfIdfSimilarity_init isword lower ts = Ok (tfidf_model isword lower ts).
Proof. unfold TfIdfSimilarity_init. now rewrite compute_idf_ok. Qed.

Lemma weight_ok (ts : list text) (tokens : list text) (w : text) :
  w ∈ build_vocab isword lower ts ->
  weight (tfidf_model isword lower ts) tokens w
  = Ok (tf_value (count w tokens) * idf_value isword lower ts w).
Proof.
  intros Hw. unfold weight, tf_value.
  assert (getitem (idf (tfidf_model isword lower ts)) w
          = Ok (idf_value isword lower ts w)) as Hi
    by now apply getitem_comprehension.
  destruct (decide (0 < count w tokens)%nat) as [Hc | Hc].
  - rewrite math_log_ok by (apply lt_0_INR; lia). now rewrite !bind_Ok, Hi.
  - now rewrite bind_Ok, Hi.
Qed.

Lemma fsum_squares_nonneg (vec : list R) : 0 <= fsum (map (fun x => x * x) vec).
Proof.
  induction vec as [| x vec IH]; [unfold fsum; simpl; lra |].
  rewrite map_cons, fsum_cons. pose proof (Rle_0_sqr x) as Hx.
  unfold Rsqr in Hx. lra.
Qed.

(** Normalisation never raises: the division is guarded by [if norm]. *)
Lemma normalisation_ok (vec : list R) :
  (norm ← math_sqrt (fsum (map (fun x => x * x) vec));
   if decide (norm ≠ 0) then list_comp (fun x => truediv x norm) vec else Ok vec)
  = Ok (normalize vec).
Proof.
  rewrite math_sqrt_ok by apply fsum_squares_nonneg. simpl.
  unfold normalize, l2norm.
  destruct (decide _) as [Hn | Hn]; [| reflexivity].
  apply list_comp_ok. intros x _. now apply truediv_ok.
Qed.

Lemma vector_of_ok (ts : list text) (t : text) :
  vector_of isword lower (tfidf_model isword lower ts) t
  = Ok (normalize (raw_vector isword lower ts t)).
Proof.
  unfold vector_of.
  rewrite (list_comp_ok _ (fun w => tf_value (count w (words t))
                                   * idf_value isword lower ts w)).
  - simpl. apply normalisation_ok.
  - intros w Hw. now apply weight_ok.
Qed.

Lemma compute_vectors_ok (ts : list text) :
  compute_vectors isword lower (tfidf_model isword lower ts)
  = Ok (map (fun t => normalize (raw_vector isword lower ts t)) ts).
Proof.
  unfold compute_vectors. apply list_comp_ok. intros t _. apply vector_of_ok.
Qed.

Lemma ln_ge_0 (x : R) : 1 <= x -> 0 <= ln x.
Proof.
  intros [Hlt | <-]; [| rewrite ln_1; lra].
  rewrite <- ln_1. left. apply ln_increasing; lra.
Qed.

Lemma doc_freq_le (ts : list text) (w : text) :
  (doc_freq isword lower ts w <= length ts)%nat.
Proof.
  unfold doc_freq, tokenize.
  etransitivity; [apply length_filter |]. now rewrite length_map.
Qed.

(** The smoothed IDF is at least 1. *)
Lemma idf_value_ge_1 (ts : list text) (w : text) : 1 <= idf_value isword lower ts w.
Proof.
  unfold idf_value. pose proof (doc_freq_le ts w) as Hdf.
  assert (0 < INR (doc_freq isword lower ts w + 1)) as Hd by (apply lt_0_INR; lia).
  assert (INR (doc_freq isword lower ts w + 1) <= INR (length ts + 1)) as Hle
    by (apply le_INR; lia).
  assert (0 <= ln (INR (length ts + 1) / INR (doc_freq isword lower ts w + 1))); [| lra].
  apply ln_ge_0. apply Rmult_le_reg_r with (INR (doc_freq isword lower ts w + 1)); [lra |].
  unfold Rdiv. rewrite Rmult_assoc, Rinv_l; lra.
Qed.

(** A term that occurs in every text has IDF exactly 1. *)
Lemma idf_value_everywhere (ts : list text) (w : text) :
  doc_freq isword lower ts w = length ts -> idf_value isword lower ts w = 1.
Proof.
  intros Hdf. unfold idf_value. rewrite Hdf.
  assert (0 < INR (length ts + 1)) as Hn by (apply lt_0_INR; lia).
  unfold Rdiv. rewrite Rinv_r by lra. rewrite ln_1. lra.
Qed.

Lemma tf_value_nonneg (c : nat) : 0 <= tf_value c.
Proof.
  unfold tf_value. destruct (decide _) as [Hc | Hc]; [| lra].
  assert (0 <= ln (INR c)); [| lra]. apply ln_ge_0.
  change 1 with (INR 1). apply le_INR. lia.
Qed.

Lemma tf_value_ge_1 (c : nat) : (0 < c)%nat -> 1 <= tf_value c.
Proof.
  intros Hc. unfold tf_value. destruct (decide _) as [_ | Hn]; [| contradiction].
  assert (0 <= ln (INR c)); [| lra]. apply ln_ge_0.
  change 1 with (INR 1). apply le_INR. lia.
Qed.

Lemma tf_value_0 : tf_value 0 = 0.
Proof. reflexivity. Qed.

Lemma raw_vector_nonneg (ts : list text) (t : text) :
  Forall (fun x => 0 <= x) (raw_vector isword lower ts t).
Proof.
  unfold raw_vector. apply Forall_fmap, Forall_forall. intros w _. simpl.
  apply Rmult_le_pos; [apply tf_value_nonneg |].
  pose proof (idf_value_ge_1 ts w). lra.
Qed.


(** ** Norms and dot products *)

Lemma l2norm_nonneg (vec : list R) : 0 <= l2norm vec.
Proof. apply sqrt_pos. Qed.

Lemma l2norm_sqr (vec : list R) :
  l2norm vec * l2norm vec = fsum (map (fun x => x * x) vec).
Proof. apply sqrt_sqrt, fsum_squares_nonneg. Qed.

Lemma fsum_squares_scaled (vec : list R) (n : R) :
  n <> 0 ->
  fsum (map (fun x => x * x) (map (fun x => x / n) vec))
  = fsum (map (fun x => x * x) vec) / (n * n).
Proof.
  intros Hn. induction vec as [| x vec IH].
  - unfold fsum. simpl. unfold Rdiv. ring.
  - rewrite !map_cons, !fsum_cons, IH. field. assumption.
Qed.

Lemma fsum_squares_0 (vec : list R) :
  fsum (map (fun x => x * x) vec) = 0 -> Forall (fun x => x = 0) vec.
Proof.
  induction vec as [| x vec IH]; intros Hs; [constructor |].
  rewrite map_cons, fsum_cons in Hs. pose proof (fsum_squares_nonneg vec) as Hv.
  assert (0 <= x * x) as Hx by nra.
  constructor; [nra |]. apply IH. lra.
Qed.

(** A vector of non-zero norm is scaled to norm 1. *)
Lemma normalize_l2norm (vec : list R) :
  l2norm vec <> 0 -> l2norm (normalize vec) = 1.
Proof.
  intros Hn. unfold normalize. destruct (decide _) as [_ | H0]; [| contradiction].
  unfold l2norm at 1. rewrite fsum_squares_scaled by assumption.
  rewrite <- l2norm_sqr. unfold Rdiv. rewrite Rinv_r; [apply sqrt_1 |].
  now apply Rmult_integral_contrapositive.
Qed.

(** A vector of norm 0 is the zero vector and is returned as it is. *)
Lemma normalize_zero (vec : list R) :
  l2norm vec = 0 -> normalize vec = vec /\ Forall (fun x => x = 0) vec.
Proof.
  intros Hn. split.
  - unfold normalize. destruct (decide _) as [H0 | _]; [contradiction | reflexivity].
  - apply fsum_squares_0. rewrite <- l2norm_sqr, Hn. lra.
Qed.

Lemma normalize_nil : normalize [] = [].
Proof. unfold normalize. now destruct (decide _). Qed.


Lemma normalize_nonneg (vec : list R) :
  Forall (fun x => 0 <= x) vec -> Forall (fun x => 0 <= x) (normalize vec).
Proof.
  intros Hv. unfold normalize. destruct (decide _) as [Hn | _]; [| assumption].
  pose proof (l2norm_nonneg vec) as Hp.
  apply Forall_fmap. eapply Forall_impl; [exact Hv |]. intros x Hx. simpl.
  apply Rmult_le_pos; [assumption |]. left. apply Rinv_0_lt_compat. lra.
Qed.

Lemma normalize_squares_le_1 (vec : list R) :
  fsum (map (fun x => x * x) (normalize vec)) <= 1.
Proof.
  destruct (decide (l2norm vec = 0)) as [H0 | Hn].
  - destruct (normalize_zero vec H0) as [-> _].
    rewrite <- l2norm_sqr, H0. lra.
  - rewrite <- l2norm_sqr, normalize_l2norm by assumption. lra.
Qed.

Lemma dot_cons (a b : R) (v1 v2 : list R) : dot (a :: v1) (b :: v2) = a * b + dot v1 v2.
Proof. unfold dot. now rewrite zip_cons, map_cons, fsum_cons. Qed.

Lemma dot_nil_l (v : list R) : dot [] v = 0.
Proof. reflexivity. Qed.

Lemma dot_nil_r (v : list R) : dot v [] = 0.
Proof. now destruct v. Qed.

Lemma dot_sym (v1 v2 : list R) : dot v1 v2 = dot v2 v1.
Proof.
  revert v2. induction v1 as [| a v1 IH]; intros [| b v2]; try reflexivity.
  rewrite !dot_cons, IH. ring.
Qed.

Lemma dot_self (v : list R) : dot v v = fsum (map (fun x => x * x) v).
Proof.
  induction v as [| a v IH]; [reflexivity |]. now rewrite dot_cons, IH, map_cons, fsum_cons.
Qed.

Lemma dot_nonneg (v1 v2 : list R) :
  Forall (fun x => 0 <= x) v1 -> Forall (fun x => 0 <= x) v2 -> 0 <= dot v1 v2.
Proof.
  intros H1. revert v2. induction H1 as [| a v1 Ha H1 IH]; intros v2 H2.
  - rewrite dot_nil_l. lra.
  - destruct H2 as [| b v2 Hb H2]; [rewrite dot_nil_r; lra |].
    rewrite dot_cons. specialize (IH v2 H2). nra.
Qed.

(** Twice the dot product is at most the sum of the squared norms; the
    positions beyond the shorter vector only add to the right-hand side. *)
Lemma dot_le_squares (v1 v2 : list R) :
  2 * dot v1 v2
  <= fsum (map (fun x => x * x) v1) + fsum (map (fun x => x * x) v2).
Proof.
  revert v2. induction v1 as [| a v1 IH]; intros v2.
  - pose proof (fsum_squares_nonneg v2). rewrite dot_nil_l. simpl map.
    rewrite fsum_nil. lra.
  - destruct v2 as [| b v2].
    + pose proof (fsum_squares_nonneg (a :: v1)). rewrite dot_nil_r. simpl map in *.
      rewrite (fsum_nil). lra.
    + rewrite dot_cons. specialize (IH v2). rewrite !map_cons, !fsum_cons.
      pose proof (Rle_0_sqr (a - b)) as Hsq. unfold Rsqr in Hsq. lra.
Qed.

Lemma TfIdfSimilarity_compare_dot (v1 v2 : list R) :
  TfIdfSimilarity_compare v1 v2
  = if truthy v1 && truthy v2 then py_round (dot v1 v2) 4 else 0.
Proof. reflexivity. Qed.

Lemma TfIdfSimilarity_compare_sym (v1 v2 : list R) :
  TfIdfSimilarity_compare v1 v2 = TfIdfSimilarity_compare v2 v1.
Proof.
  rewrite !TfIdfSimilarity_compare_dot, (dot_sym v1 v2).
  now destruct (truthy v1), (truthy v2).
Qed.

(** The score of two normalised vectors of non-negative components lies in
    the unit interval. *)
Lemma TfIdfSimilarity_compare_unit (r1 r2 : list R) :
  Forall (fun x => 0 <= x) r1 -> Forall (fun x => 0 <= x) r2 ->
  0 <= TfIdfSimilarity_compare (normalize r1) (normalize r2) <= 1.
Proof.
  intros H1 H2. rewrite TfIdfSimilarity_compare_dot.
  destruct (truthy _ && truthy _); [| lra].
  apply py_round_unit. split.
  - apply dot_nonneg; now apply normalize_nonneg.
  - pose proof (dot_le_squares (normalize r1) (normalize r2)).
    pose proof (normalize_squares_le_1 r1). pose proof (normalize_squares_le_1 r2). lra.
Qed.

(** ** Documents with and without word tokens *)

Lemma count_pos (w : text) (l : list text) : w ∈ l -> (0 < count w l)%nat.
Proof.
  intros Hw. unfold count.
  assert (w ∈ filter (w =.) l) as Hf by now apply list_elem_of_filter.
  destruct (filter (w =.) l); [now apply not_elem_of_nil in Hf | simpl; lia].
Qed.


Lemma fsum_squares_elem (x : R) (vec : list R) :
  x ∈ vec -> x * x <= fsum (map (fun y => y * y) vec).
Proof.
  induction vec as [| y vec IH]; intros Hx; [now apply not_elem_of_nil in Hx |].
  rewrite map_cons, fsum_cons. pose proof (fsum_squares_nonneg vec) as Hv.
  apply elem_of_cons in Hx as [-> | Hx]; [lra |].
  specialize (IH Hx). pose proof (Rle_0_sqr y) as Hy. unfold Rsqr in Hy. lra.
Qed.


(** A text of the corpus with a word token has a vector of non-zero norm. *)
Lemma raw_vector_norm_pos (ts : list text) (t : text) :
  t ∈ ts -> words t <> [] -> l2norm (raw_vector isword lower ts t) <> 0.
Proof.
  intros Ht Hw.
  assert (exists w, w ∈ words t) as [w Hin]
    by (destruct (words t) as [| w ws]; [congruence | exists w; left]).
  assert (w ∈ build_vocab isword lower ts) as Hv by (apply elem_of_build_vocab; eauto).
  set (x := tf_value (count w (words t)) * idf_value isword lower ts w).
  assert (x ∈ raw_vector isword lower ts t) as Hx.
  { unfold raw_vector. apply list_elem_of_fmap. exists w. split; [reflexivity | assumption]. }
  assert (1 <= x) as Hx1.
  { unfold x. pose proof (tf_value_ge_1 _ (count_pos w _ Hin)).
    pose proof (idf_value_ge_1 ts w). nra. }
  apply fsum_squares_elem in Hx.
  intros H0. pose proof (l2norm_sqr (raw_vector isword lower ts t)) as Hs.
  rewrite H0 in Hs. nra.
Qed.


Lemma build_vocab_nil (ts : list text) :
  build_vocab isword lower ts = [] <-> forall t, t ∈ ts -> words t = [].
Proof.
  split.
  - intros Hv t Ht. destruct (words t) as [| w ws] eqn:Ew; [reflexivity |].
    assert (w ∈ build_vocab isword lower ts) as Hin
      by (apply elem_of_build_vocab; exists t; rewrite Ew; split; [assumption | left]).
    rewrite Hv in Hin. now apply not_elem_of_nil in Hin.
  - intros Hts. destruct (build_vocab isword lower ts) as [| w l] eqn:Ev; [reflexivity |].
    assert (w ∈ build_vocab isword lower ts) as Hin by (rewrite Ev; left).
    apply elem_of_build_vocab in Hin as (t & Ht & Hw).
    rewrite (Hts t Ht) in Hw. now apply not_elem_of_nil in Hw.
Qed.

(** ** TextComparer *)

(** [compare_all] step by step: once the two scores that are computed by
    fallible code are known, the result is. *)
Lemma compare_all_unfold (a b : text) (s j : R) :
  StylisticFingerprint_compare (map (fun x => py_round x 3) (features_of a))
                               (map (fun x => py_round x 3) (features_of b)) epsilon = Ok s ->
  JaccardSimilarity_compute isword lower a b = Ok j ->
  compare_all isword isspace lower a b
  = Ok {| stylistic := s;
          jaccard := j;
          tfidf := TfIdfSimilarity_compare
                     (normalize (raw_vector isword lower [a; b] a))
                     (normalize (raw_vector isword lower [a; b] b)) |}.
Proof.
  intros Hs Hj. unfold compare_all.
  rewrite !compute_fingerprint_ok, !bind_Ok, Hs, bind_Ok, Hj, bind_Ok.
  rewrite TfIdfSimilarity_init_ok, bind_Ok, compute_vectors_ok. reflexivity.
Qed.

Lemma rounded_features_nonneg (t : text) :
  Forall (fun x => 0 <= x) (map (fun x => py_round x 3) (features_of t)).
Proof. apply (fingerprint_nonneg t), compute_fingerprint_ok. Qed.

Lemma build_vocab_swap (a b : text) :
  build_vocab isword lower [a; b] = build_vocab isword lower [b; a].
Proof.
  unfold build_vocab, tokenize. simpl. rewrite !app_nil_r, !list_to_set_app_L.
  now rewrite (comm_L (∪)).
Qed.

Lemma doc_freq_swap (a b w : text) :
  doc_freq isword lower [a; b] w = doc_freq isword lower [b; a] w.
Proof.
  unfold doc_freq, tokenize. simpl map. rewrite !filter_cons, filter_nil.
  now destruct (decide (w ∈ words a)), (decide (w ∈ words b)).
Qed.

Lemma raw_vector_swap (a b t : text) :
  raw_vector isword lower [a; b] t = raw_vector isword lower [b; a] t.
Proof.
  unfold raw_vector. rewrite (build_vocab_swap a b). apply map_ext. intros w.
  unfold idf_value. now rewrite (doc_freq_swap a b).
Qed.

(** The result of [compare_all], always produced. *)
Lemma compare_all_ok (a b : text) :
  exists s j,
    StylisticFingerprint_compare (map (fun x => py_round x 3) (features_of a))
                                 (map (fun x => py_round x 3) (features_of b)) epsilon = Ok s
    /\ JaccardSimilarity_compute isword lower a b = Ok j
    /\ 0 <= s <= 1 /\ 0 <= j <= 1
    /\ compare_all isword isspace lower a b
       = Ok {| stylistic := s;
               jaccard := j;
               tfidf := TfIdfSimilarity_compare
                          (normalize (raw_vector isword lower [a; b] a))
                          (normalize (raw_vector isword lower [a; b] b)) |}.
Proof.
  destruct (StylisticFingerprint_compare_unit _ _ epsilon epsilon_pos
              (rounded_features_nonneg a) (rounded_features_nonneg b)) as (s & Hs & Hsu).
  destruct (JaccardSimilarity_compute_unit a b) as (j & Hj & Hju).
  exists s, j. repeat split; try assumption; try tauto.
  now apply compare_all_unfold.
Qed.

(** C4.  For all texts [a] and [b], [compare_all] on [(a, b)] and on
    [(b, a)] both return, and the two results agree on each of the three
    scores [stylistic], [jaccard] and [tfidf]. *)
Theorem compare_all_symmetric (a b : text) :
  exists r r',
    compare_all isword isspace lower a b = Ok r
    /\ compare_all isword isspace lower b a = Ok r'
    /\ stylistic r = stylistic r'
    /\ jaccard r = jaccard r'
    /\ tfidf r = tfidf r'.
Proof.
  destruct (compare_all_ok a b) as (s & j & Hs & Hj & _ & _ & Hab).
  rewrite StylisticFingerprint_compare_sym in Hs.
  rewrite JaccardSimilarity_compute_sym in Hj.
  pose proof (compare_all_unfold b a s j Hs Hj) as Hba.
  eexists; eexists. split; [exact Hab |]. split; [exact Hba |].
  simpl. repeat split.
  rewrite !(raw_vector_swap b a). apply TfIdfSimilarity_compare_sym.
Qed.

(** ** Range of the scores *)

Lemma diff_of_0_1 : diff_of epsilon (0, 1) = Ok (100000000 / 100000001).
Proof.
  unfold diff_of. destruct (decide _) as [[_ H] | _]; [lra |].
  unfold py_max. destruct (Rlt_dec 0 1) as [_ | H]; [| lra].
  unfold epsilon. rewrite truediv_ok by lra. f_equal.
  rewrite Rabs_minus_sym. replace (1 - 0) with 1 by ring. rewrite Rabs_R1. field.
Qed.

(** The all-zero fingerprint against the all-one fingerprint: every
    positional difference is [1 / (1 + 1e-8)], the score before rounding is
    about [1e-8], and [round(score, 4)] is [0.0]. *)
Lemma compare_zeros_ones :
  StylisticFingerprint_compare [0; 0; 0; 0; 0] [1; 1; 1; 1; 1] epsilon = Ok 0.
Proof.
  unfold StylisticFingerprint_compare.
  rewrite !zip_cons, !list_comp_cons, !diff_of_0_1. simpl list_comp.
  rewrite !bind_Ok. simpl truthy. cbv iota.
  rewrite truediv_ok by (unfold len; simpl; lra).
  rewrite !bind_Ok. f_equal.
  rewrite (py_round_near _ 0 4); [unfold Rdiv; ring |].
  unfold len, fsum. simpl. lra.
Qed.

(** C3, counterexample.  Two 5-component vectors of non-negative
    components whose score is not strictly positive: [compare] returns
    [0.0] on them. *)
Lemma stylistic_score_not_positive :
  ~ (exists s, StylisticFingerprint_compare [0; 0; 0; 0; 0] [1; 1; 1; 1; 1] epsilon = Ok s
               /\ 0 < s <= 1).
Proof.
  intros (s & Hs & Hpos & _). rewrite compare_zeros_ones in Hs.
  injection Hs as <-. lra.
Qed.

(** C3, amended.  For every pair of texts [compare_all] returns scores
    with [jaccard] and [tfidf] in [[0, 1]]; and for every pair of
    5-component vectors of non-negative components
    [StylisticFingerprint.compare] returns a value in [[0, 1]]. *)
Theorem scores_in_unit_interval :
  (forall a b : text,
     exists r, compare_all isword isspace lower a b = Ok r
               /\ 0 <= jaccard r <= 1 /\ 0 <= tfidf r <= 1)
  /\ (forall fp1 fp2 : list R,
        length fp1 = 5%nat -> length fp2 = 5%nat ->
        Forall (fun x => 0 <= x) fp1 -> Forall (fun x => 0 <= x) fp2 ->
        exists s, StylisticFingerprint_compare fp1 fp2 epsilon = Ok s /\ 0 <= s <= 1).
Proof.
  split.
  - intros a b. destruct (compare_all_ok a b) as (s & j & _ & _ & _ & Hj & ->).
    eexists. split; [reflexivity |]. simpl. split; [assumption |].
    apply TfIdfSimilarity_compare_unit; apply raw_vector_nonneg.
  - intros fp1 fp2 _ _ H1 H2.
    now apply StylisticFingerprint_compare_unit; [apply epsilon_pos | |].
Qed.

(** ** No exceptional condition *)

Lemma fingerprint_guards (t : text) :
  exists fp, fingerprint t = Ok fp
    /\ length fp = 5%nat
    /\ (sentences t = [] -> fp !! 0%nat = Some 0 /\ fp !! 4%nat = Some 0)
    /\ (words t = [] ->
        fp !! 1%nat = Some 0 /\ fp !! 2%nat = Some 0 /\ fp !! 3%nat = Some 0).
Proof.
  eexists. split; [apply compute_fingerprint_ok |]. split; [reflexivity |].
  unfold features. split.
  - intros ->. cbn [map lookup list_lookup guarded_quotient truthy].
    now rewrite py_round_0.
  - intros ->. cbn [map lookup list_lookup guarded_quotient truthy].
    now rewrite py_round_0.
Qed.

Lemma compute_vectors_guard (ts : list text) :
  exists self vs,
    TfIdfSimilarity_init isword lower ts = Ok self
    /\ compute_vectors isword lower self = Ok vs
    /\ Forall2 (fun t v =>
                  l2norm (raw_vector isword lower ts t) = 0 ->
                  v = raw_vector isword lower ts t /\ Forall (fun x => x = 0) v) ts vs.
Proof.
  exists (tfidf_model isword lower ts). eexists.
  split; [apply TfIdfSimilarity_init_ok |]. split; [apply compute_vectors_ok |].
  apply Forall2_fmap_r, Forall_Forall2_diag, Forall_forall. intros t _ Hn.
  destruct (normalize_zero _ Hn) as [E Hz]. now rewrite E.
Qed.

(** C6.  For every pair of input strings [compare_all] returns a result
    with all three scores and raises nothing.  The guards: an empty shared
    vocabulary gives [tfidf = 0.0] and an empty word union gives
    [jaccard = 0.0]; the fingerprint is produced for every text, with
    [0.0] in the sentence-based positions when there is no sentence and in
    the word-based positions when there is no word; the vectors are produced
    for every list of texts, and a vector of norm 0 is returned unmodified,
    all zero. *)
Theorem compare_all_never_raises (text1 text2 : text) :
  (exists r,
     compare_all isword isspace lower text1 text2 = Ok r
     /\ (build_vocab isword lower [text1; text2] = [] -> tfidf r = 0)
     /\ ((list_to_set (words text1) ∪ list_to_set (words text2) : gset text) = ∅ ->
         jaccard r = 0))
  /\ (forall t,
        exists fp, fingerprint t = Ok fp
          /\ length fp = 5%nat
          /\ (sentences t = [] -> fp !! 0%nat = Some 0 /\ fp !! 4%nat = Some 0)
          /\ (words t = [] ->
              fp !! 1%nat = Some 0 /\ fp !! 2%nat = Some 0 /\ fp !! 3%nat = Some 0))
  /\ (forall ts,
        exists self vs,
          TfIdfSimilarity_init isword lower ts = Ok self
          /\ compute_vectors isword lower self = Ok vs
          /\ Forall2 (fun t v =>
                        l2norm (raw_vector isword lower ts t) = 0 ->
                        v = raw_vector isword lower ts t /\ Forall (fun x => x = 0) v)
                     ts vs).
Proof.
  split; [| split; [apply fingerprint_guards | apply compute_vectors_guard]].
  destruct (compare_all_ok text1 text2) as (s & j & _ & Hj & _ & _ & ->).
  eexists. split; [reflexivity |]. simpl. split.
  - intros Hv. unfold raw_vector. rewrite Hv. simpl map.
    now rewrite normalize_nil.
  - intros Hu. unfold JaccardSimilarity_compute in Hj.
    destruct (decide _) as [Hne | _] in Hj; [contradiction | congruence].
Qed.

(** ** The public comparison functions on arbitrary vectors *)

(** C9.  [StylisticFingerprint.compare] on two empty vectors returns
    [0.0], which is not [1.0]: with no position the [1 - mean] formula is
    skipped.  [compare_all] never calls it so, since every fingerprint has
    exactly 5 components. *)
Theorem compare_empty_vectors :
  (forall eps, StylisticFingerprint_compare [] [] eps = Ok 0)
  /\ 0 <> 1
  /\ (forall t, exists fp, fingerprint t = Ok fp /\ length fp = 5%nat).
Proof.
  split; [| split].
  - intros eps. unfold StylisticFingerprint_compare. simpl. now rewrite py_round_0.
  - lra.
  - intros t. eexists. split; [apply compute_fingerprint_ok | reflexivity].
Qed.

Lemma dot_take (v1 v2 : list R) :
  dot v1 v2 = dot (take (min (length v1) (length v2)) v1)
                  (take (min (length v1) (length v2)) v2).
Proof.
  revert v2. induction v1 as [| a v1 IH]; intros [| b v2]; try reflexivity.
  simpl. rewrite !dot_cons. f_equal. apply IH.
Qed.

(** C10, counterexample.  Two non-empty vectors on which
    [TfIdfSimilarity.compare] returns [0.0]: the normalised vectors of two
    one-word texts without a common word. *)
Lemma tfidf_zero_on_nonempty_vectors :
  ~ (TfIdfSimilarity_compare [1; 0] [0; 1] = 0 <-> ([1; 0] = [] \/ [0; 1] = [])).
Proof.
  intros [Hzero _].
  assert (TfIdfSimilarity_compare [1; 0] [0; 1] = 0) as H0.
  { rewrite TfIdfSimilarity_compare_dot. simpl.
    replace (dot [1; 0] [0; 1]) with 0 by (unfold dot, fsum; simpl; ring).
    apply py_round_0. }
  destruct (Hzero H0) as [H | H]; discriminate H.
Qed.

(** C10, amended.  [TfIdfSimilarity.compare] is defined on vectors of any
    lengths: on two non-empty vectors it is the dot product over the common
    prefix of positions, rounded to 4 decimals, and it returns [0.0]
    whenever at least one of the two vectors is empty. *)
Theorem TfIdfSimilarity_compare_total (vec1 vec2 : list R) :
  let n := min (length vec1) (length vec2) in
  (vec1 <> [] -> vec2 <> [] ->
   TfIdfSimilarity_compare vec1 vec2 = py_round (dot (take n vec1) (take n vec2)) 4)
  /\ (vec1 = [] \/ vec2 = [] -> TfIdfSimilarity_compare vec1 vec2 = 0).
Proof.
  intros n. rewrite TfIdfSimilarity_compare_dot. split.
  - intros H1 H2. rewrite (dot_take vec1 vec2).
    destruct vec1, vec2; try congruence. reflexivity.
  - intros [-> | ->]; [reflexivity |]. now destruct vec1.
Qed.

(** ** Identical and empty texts *)

Lemma compare_all_same (t : text) (j : R) :
  JaccardSimilarity_compute isword lower t t = Ok j ->
  compare_all isword isspace lower t t
  = Ok {| stylistic := 1;
          jaccard := j;
          tfidf := TfIdfSimilarity_compare
                     (normalize (raw_vector isword lower [t; t] t))
                     (normalize (raw_vector isword lower [t; t] t)) |}.
Proof.
  intros Hj. apply compare_all_unfold; [| assumption].
  apply StylisticFingerprint_compare_same;
    [apply epsilon_pos | apply rounded_features_nonneg | discriminate].
Qed.

(** C1, amended.  For any text [t] with at least one word token,
    [compare_all] on the pair [(t, t)] returns [jaccard = 1.0],
    [tfidf = 1.0] and [stylistic = 1.0]. *)
Theorem compare_all_identity (t : text) :
  words t <> [] ->
  compare_all isword isspace lower t t
  = Ok {| stylistic := 1; jaccard := 1; tfidf := 1 |}.
Proof.
  intros Hw. rewrite (compare_all_same t 1 (JaccardSimilarity_compute_same t Hw)).
  do 2 f_equal.
  set (raw := raw_vector isword lower [t; t] t).
  assert (l2norm raw <> 0) as Hn by (apply raw_vector_norm_pos; [left | assumption]).
  rewrite TfIdfSimilarity_compare_dot, dot_self, <- l2norm_sqr.
  rewrite normalize_l2norm by assumption.
  assert (truthy (normalize raw) = true) as ->.
  { destruct (normalize raw) as [| x v] eqn:E; [| reflexivity].
    pose proof (normalize_l2norm raw Hn) as H1. rewrite E in H1.
    unfold l2norm in H1. simpl map in H1. rewrite fsum_nil, sqrt_0 in H1. lra. }
  simpl. rewrite Rmult_1_l. apply py_round_1.
Qed.

(** C5.  [compare_all] on two empty strings returns exactly
    [jaccard = 0.0], [tfidf = 0.0] and [stylistic = 1.0]: both fingerprints
    are all zero, every positional difference is [0.0], and the empty word
    union and the empty vocabulary give [0.0]. *)
Theorem compare_all_empty :
  lower [] = [] ->
  fingerprint [] = Ok [0; 0; 0; 0; 0]
  /\ list_comp (diff_of epsilon) (zip [0; 0; 0; 0; 0] [0; 0; 0; 0; 0])
     = Ok [0; 0; 0; 0; 0]
  /\ build_vocab isword lower [([] : text); ([] : text)] = []
  /\ compare_all isword isspace lower [] []
     = Ok {| stylistic := 1; jaccard := 0; tfidf := 0 |}.
Proof.
  intros Hlower.
  assert (words [] = []) as Hw by now rewrite Hlower.
  assert (map (fun x => py_round x 3) (features_of []) = [0; 0; 0; 0; 0]) as Hf.
  { unfold features. rewrite Hw.
    change (sentences []) with (@nil text).
    cbn [map guarded_quotient truthy]. now rewrite py_round_0. }
  assert (build_vocab isword lower [([] : text); ([] : text)] = []) as Hv.
  { apply build_vocab_nil. intros t Ht.
    apply elem_of_cons in Ht as [-> | Ht]; [assumption |].
    apply elem_of_cons in Ht as [-> | Ht]; [assumption |].
    now apply not_elem_of_nil in Ht. }
  split; [now rewrite compute_fingerprint_ok, Hf |].
  split; [apply (diffs_same epsilon [0; 0; 0; 0; 0] epsilon_pos);
          repeat constructor; lra |].
  split; [assumption |].
  rewrite (compare_all_same [] 0 (JaccardSimilarity_compute_nowords [] [] Hw Hw)).
  do 2 f_equal. unfold raw_vector. rewrite Hv. simpl map.
  now rewrite normalize_nil.
Qed.

(** ** Inverse document frequency *)

Lemma doc_freq_spec (ts : list text) (w : text) :
  doc_freq isword lower ts w = length (filter (fun t => w ∈ words t) ts).
Proof.
  unfold doc_freq, tokenize. induction ts as [| t ts IH]; [reflexivity |].
  rewrite map_cons, !filter_cons.
  destruct (decide (w ∈ words t)); simpl; now rewrite IH.
Qed.

(** C7.  For every term [w] of the vocabulary built over [N] texts, the
    IDF weight stored for [w] is [ln((N+1)/(df+1)) + 1], where [df] is the
    number of texts with at least one occurrence of [w]; the weight is
    strictly positive, it is exactly 1 when [w] occurs in all [N] texts, and
    the divisor [df + 1] is not zero: the construction raises nothing. *)
Theorem idf_weight_formula (ts : list text) (w : text) :
  w ∈ build_vocab isword lower ts ->
  let N := length ts in
  let df := length (filter (fun t => w ∈ words t) ts) in
  exists self,
    TfIdfSimilarity_init isword lower ts = Ok self
    /\ INR (df + 1) <> 0
    /\ idf self !! w = Some (ln (INR (N + 1) / INR (df + 1)) + 1)
    /\ 0 < ln (INR (N + 1) / INR (df + 1)) + 1
    /\ (df = N -> idf self !! w = Some 1).
Proof.
  intros Hw N df. exists (tfidf_model isword lower ts).
  assert (idf (tfidf_model isword lower ts) !! w
          = Some (ln (INR (N + 1) / INR (df + 1)) + 1)) as Hi.
  { unfold tfidf_model, idf. rewrite lookup_comprehension by assumption.
    unfold idf_value. now rewrite doc_freq_spec. }
  pose proof (idf_value_ge_1 ts w) as Hge. unfold idf_value in Hge.
  rewrite doc_freq_spec in Hge. fold N df in Hge.
  split; [apply TfIdfSimilarity_init_ok |].
  split; [apply Rgt_not_eq, lt_0_INR; lia |].
  split; [assumption |]. split; [lra |].
  intros Hall. rewrite Hi, Hall. f_equal.
  assert (0 < INR (N + 1)) as Hn by (apply lt_0_INR; lia).
  unfold Rdiv. rewrite Rinv_r by lra. rewrite ln_1. lra.
Qed.

(** ** Normalised vectors *)


End EngineProperties.

(** * The concrete scenarios, on the ASCII tables *)

(** ** Bounds on [ln (3/2)]

    [exp] is bracketed by [(1 + y)^n <= exp (n * y) <= (1 / (1 - y))^n] with
    [n = 2^12]; the powers are taken by squaring, rounded towards the safe
    side at 18 decimals. *)

Lemma exp_lower_step (y a b : R) :
  a <= exp y -> 0 <= a -> b <= a * a -> b <= exp (2 * y).
Proof.
  intros Hy Ha Hb. replace (2 * y) with (y + y) by ring. rewrite exp_plus. nra.
Qed.

Lemma exp_upper_step (y a b : R) :
  exp y <= a -> a * a <= b -> exp (2 * y) <= b.
Proof.
  intros Hy Hb. pose proof (exp_pos y) as Hp.
  replace (2 * y) with (y + y) by ring. rewrite exp_plus. nra.
Qed.

Lemma exp_upper_base (y : R) : y < 1 -> exp y <= / (1 - y).
Proof.
  intros Hy. pose proof (exp_ineq1_le (- y)) as H. rewrite exp_Ropp in H.
  pose proof (exp_pos y) as Hp.
  rewrite <- (Rinv_inv (exp y)). apply Rinv_le_contravar; lra.
Qed.

(** [exp 0.4056] is above [3/2]: twelve squarings of [1 + 0.4056/4096]. *)
Lemma exp_4056_lower : 3 / 2 < exp (4056 / 10000).
Proof.
  pose proof (exp_ineq1_le (507 / 5120000)) as H.
  assert (5120507 / 5120000 <= exp (507 / 5120000)) as H0 by lra. clear H.
  pose proof (exp_lower_step _ _ (500099028340320587 / 500000000000000000) H0) as H1. clear H0.
  specialize (H1 ltac:(lra) ltac:(lra)).
  pose proof (exp_lower_step _ _ (500198076293865547 / 500000000000000000) H1) as H2. clear H1.
  specialize (H2 ltac:(lra) ltac:(lra)).
  pose proof (exp_lower_step _ _ (500396231056167477 / 500000000000000000) H2) as H3. clear H2.
  specialize (H3 ltac:(lra) ltac:(lra)).
  pose proof (exp_lower_step _ _ (500792776110434697 / 500000000000000000) H3) as H4. clear H3.
  specialize (H4 ltac:(lra) ltac:(lra)).
  pose proof (exp_lower_step _ _ (1003173618417583891 / 1000000000000000000) H4) as H5. clear H4.
  specialize (H5 ltac:(lra) ltac:(lra)).
  pose proof (exp_lower_step _ _ (1006357308689028209 / 1000000000000000000) H5) as H6. clear H5.
  specialize (H6 ltac:(lra) ltac:(lra)).
  pose proof (exp_lower_step _ _ (1012755032751824011 / 1000000000000000000) H6) as H7. clear H6.
  specialize (H7 ltac:(lra) ltac:(lra)).
  pose proof (exp_lower_step _ _ (1641076410182637 / 1600000000000000) H7) as H8. clear H7.
  specialize (H8 ltac:(lra) ltac:(lra)).
  pose proof (exp_lower_step _ _ (526002301573814579 / 500000000000000000) H8) as H9. clear H8.
  specialize (H9 ltac:(lra) ltac:(lra)).
  pose proof (exp_lower_step _ _ (276678421260950179 / 250000000000000000) H9) as H10. clear H9.
  specialize (H10 ltac:(lra) ltac:(lra)).
  pose proof (exp_lower_step _ _ (2392217149732869 / 1953125000000000) H10) as H11. clear H10.
  specialize (H11 ltac:(lra) ltac:(lra)).
  pose proof (exp_lower_step _ _ (750086113391549059 / 500000000000000000) H11) as H12. clear H11.
  specialize (H12 ltac:(lra) ltac:(lra)).
  replace (2 * (2 * (2 * (2 * (2 * (2 * (2 * (2 * (2 * (2 * (2 * (2 * (507 / 5120000))))))))))))) with (4056 / 10000) in H12 by lra.
  lra.
Qed.

(** [exp 0.4054] is below [3/2]: twelve squarings of [1 / (1 - 0.4054/4096)]. *)
Lemma exp_4054_upper : exp (4054 / 10000) < 3 / 2.
Proof.
  pose proof (exp_upper_base (2027 / 20480000) ltac:(lra)) as H.
  assert (exp (2027 / 20480000) <= 20001979688126359 / 20000000000000000) as H0.
  { eapply Rle_trans; [exact H |]. apply Rmult_le_reg_r with (1 - 2027 / 20480000); [lra |].
    rewrite Rinv_l by lra. lra. }
  clear H.
  pose proof (exp_upper_step _ _ (200039595722109719 / 200000000000000000) H0) as H1. clear H0.
  specialize (H1 ltac:(lra)).
  pose proof (exp_upper_step _ _ (40015839856665097 / 40000000000000000) H1) as H2. clear H1.
  specialize (H2 ltac:(lra)).
  pose proof (exp_upper_step _ _ (15637377338225263 / 15625000000000000) H2) as H3. clear H2.
  specialize (H3 ltac:(lra)).
  pose proof (exp_upper_step _ _ (1001584926793895983 / 1000000000000000000) H3) as H4. clear H3.
  specialize (H4 ltac:(lra)).
  pose proof (exp_upper_step _ _ (125396545697591747 / 125000000000000000) H4) as H5. clear H4.
  specialize (H5 ltac:(lra)).
  pose proof (exp_upper_step _ _ (503177397532422889 / 500000000000000000) H5) as H6. clear H5.
  specialize (H6 ltac:(lra)).
  pose proof (exp_upper_step _ _ (202549994710001549 / 200000000000000000) H6) as H7. clear H6.
  specialize (H7 ltac:(lra)).
  pose proof (exp_upper_step _ _ (256415627231385347 / 250000000000000000) H7) as H8. clear H7.
  specialize (H8 ltac:(lra)).
  pose proof (exp_upper_step _ _ (262995895553859067 / 250000000000000000) H8) as H9. clear H8.
  specialize (H9 ltac:(lra)).
  pose proof (exp_upper_step _ _ (553334728625410779 / 500000000000000000) H9) as H10. clear H9.
  specialize (H10 ltac:(lra)).
  pose proof (exp_upper_step _ _ (306179321902956991 / 250000000000000000) H10) as H11. clear H10.
  specialize (H11 ltac:(lra)).
  pose proof (exp_upper_step _ _ (749966217287636469 / 500000000000000000) H11) as H12. clear H11.
  specialize (H12 ltac:(lra)).
  replace (2 * (2 * (2 * (2 * (2 * (2 * (2 * (2 * (2 * (2 * (2 * (2 * (2027 / 20480000))))))))))))) with (4054 / 10000) in H12 by lra.
  lra.
Qed.

Lemma ln_3_2_bounds : 4054 / 10000 < ln (3 / 2) < 4056 / 10000.
Proof.
  split; apply exp_lt_inv; rewrite exp_ln by lra.
  - apply exp_4054_upper.
  - apply exp_4056_lower.
Qed.

(** ** Evaluating the counting part of the model *)

(** The lists, sets and counts of a closed text are computed; what is left
    is arithmetic on real numbers. *)
Ltac eval_counts :=
  unfold len;
  repeat match goal with
         | |- context [@truthy ?A ?l] =>
             let v := eval vm_compute in (@truthy A l) in
             progress (change (@truthy A l) with v)
         | |- context [INR ?n] =>
             let v := eval vm_compute in n in progress (change n with v)
         | |- context [tf_value ?n] =>
             let v := eval vm_compute in n in progress (change n with v)
         end;
  cbv iota.

Lemma py_round_exact (x : R) (z : Z) (n : nat) :
  x * 10 ^ n = IZR z -> py_round x n = x.
Proof.
  intros Hx. unfold py_round. rewrite Hx, round_half_even_IZR, <- Hx.
  pose proof (pow10_pos n). field. lra.
Qed.

Lemma tf_value_1 : tf_value 1 = 1.
Proof.
  unfold tf_value. destruct (decide _) as [_ | H]; [| lia].
  simpl INR. rewrite ln_1. ring.
Qed.

Lemma dot_scaled (v1 v2 : list R) (n1 n2 : R) :
  n1 <> 0 -> n2 <> 0 ->
  dot (map (fun x => x / n1) v1) (map (fun x => x / n2) v2) = dot v1 v2 / (n1 * n2).
Proof.
  intros H1 H2. revert v2. induction v1 as [| a v1 IH]; intros [| b v2].
  - simpl map. rewrite !dot_nil_l. unfold Rdiv. ring.
  - simpl map. rewrite !dot_nil_l. unfold Rdiv. ring.
  - rewrite dot_nil_r. simpl map. rewrite dot_nil_r. unfold Rdiv. ring.
  - rewrite !map_cons, !dot_cons, IH. field. split; assumption.
Qed.

(** ** Scenario B: "Cats run." against "Dogs run." *)

Lemma features_cats_run :
  features Ascii.isword Ascii.isspace Ascii.lower (text_of_string "Cats run.")
  = [2; 7 / 2; 1 / 2; 1; 1].
Proof.
  unfold features, guarded_quotient. eval_counts. simpl INR. repeat f_equal; lra.
Qed.

Lemma features_dogs_run :
  features Ascii.isword Ascii.isspace Ascii.lower (text_of_string "Dogs run.")
  = [2; 7 / 2; 1 / 2; 1; 1].
Proof.
  unfold features, guarded_quotient. eval_counts. simpl INR. repeat f_equal; lra.
Qed.

Lemma round_scenario_features :
  map (fun x => py_round x 3) [2; 7 / 2; 1 / 2; 1; 1] = [2; 7 / 2; 1 / 2; 1; 1].
Proof.
  cbn [map].
  rewrite (py_round_exact 2 2000), (py_round_exact (7 / 2) 3500),
    (py_round_exact (1 / 2) 500), (py_round_exact 1 1000); first [reflexivity | simpl; lra].
Qed.

Lemma jaccard_cats_dogs :
  JaccardSimilarity_compute Ascii.isword Ascii.lower
    (text_of_string "Cats run.") (text_of_string "Dogs run.")
  = Ok (3333 / 10000).
Proof.
  unfold JaccardSimilarity_compute. destruct (decide _) as [_ | He].
  - eval_counts. rewrite truediv_ok by (simpl; lra). rewrite bind_Ok. f_equal.
    rewrite (py_round_near _ 3333 4); simpl; lra.
  - exfalso. apply He. intros E. apply (f_equal size) in E.
    vm_compute in E. discriminate E.
Qed.

Lemma vocab_cats_dogs :
  build_vocab Ascii.isword Ascii.lower
    [text_of_string "Cats run."; text_of_string "Dogs run."]
  = [text_of_string "cats"; text_of_string "dogs"; text_of_string "run"].
Proof. vm_compute. reflexivity. Qed.

Lemma raw_vector_cats :
  raw_vector Ascii.isword Ascii.lower
    [text_of_string "Cats run."; text_of_string "Dogs run."] (text_of_string "Cats run.")
  = [ln (3 / 2) + 1; 0; 1].
Proof.
  unfold raw_vector. rewrite vocab_cats_dogs. cbn [map]. unfold idf_value.
  eval_counts. rewrite tf_value_1, tf_value_0. simpl INR.
  replace ((1 + 1 + 1) / (1 + 1)) with (3 / 2) by lra.
  replace ((1 + 1 + 1) / (1 + 1 + 1)) with 1 by lra.
  rewrite ln_1. repeat f_equal; ring.
Qed.

Lemma raw_vector_dogs :
  raw_vector Ascii.isword Ascii.lower
    [text_of_string "Cats run."; text_of_string "Dogs run."] (text_of_string "Dogs run.")
  = [0; ln (3 / 2) + 1; 1].
Proof.
  unfold raw_vector. rewrite vocab_cats_dogs. cbn [map]. unfold idf_value.
  eval_counts. rewrite tf_value_1, tf_value_0. simpl INR.
  replace ((1 + 1 + 1) / (1 + 1)) with (3 / 2) by lra.
  replace ((1 + 1 + 1) / (1 + 1 + 1)) with 1 by lra.
  rewrite ln_1. repeat f_equal; ring.
Qed.

(** The dot product of the two normalised vectors is [1 / (L^2 + 1)] with
    [L = ln (3/2) + 1], about [0.33610]. *)
Lemma tfidf_cats_dogs :
  TfIdfSimilarity_compare (normalize [ln (3 / 2) + 1; 0; 1])
                          (normalize [0; ln (3 / 2) + 1; 1])
  = 3361 / 10000.
Proof.
  pose proof ln_3_2_bounds as Hln.
  set (L := ln (3 / 2) + 1). set (S := L * L + 1).
  assert (14054 / 10000 < L < 14056 / 10000) as HL by (unfold L; lra).
  assert (297514 / 100000 < S < 297572 / 100000) as HS by (unfold S; nra).
  assert (l2norm [L; 0; 1] = sqrt S) as Hn1
    by (unfold l2norm, fsum; simpl; f_equal; unfold S; ring).
  assert (l2norm [0; L; 1] = sqrt S) as Hn2
    by (unfold l2norm, fsum; simpl; f_equal; unfold S; ring).
  assert (0 < sqrt S) as Hs by (apply sqrt_lt_R0; lra).
  unfold normalize. rewrite Hn1, Hn2.
  destruct (decide (sqrt S ≠ 0)) as [Hne | He]; [| exfalso; apply He; lra].
  rewrite TfIdfSimilarity_compare_dot. cbn [map truthy andb].
  change [L / sqrt S; 0 / sqrt S; 1 / sqrt S]
    with (map (fun x => x / sqrt S) [L; 0; 1]).
  change [0 / sqrt S; L / sqrt S; 1 / sqrt S]
    with (map (fun x => x / sqrt S) [0; L; 1]).
  rewrite dot_scaled by assumption. rewrite sqrt_sqrt by lra.
  replace (dot [L; 0; 1] [0; L; 1]) with 1 by (unfold dot, fsum; simpl; ring).
  assert (0 < / S) as Hq by (apply Rinv_0_lt_compat; lra).
  assert (/ S * S = 1) as Hq1 by (apply Rinv_l; lra).
  rewrite (py_round_near _ 3361 4); [simpl; lra |].
  unfold Rdiv. simpl pow. nra.
Qed.

(** C2, counterexample.  The scores of scenario B as the claim lists
    them, with [tfidf = 0.3362], are not what [compare_all] returns. *)
Lemma scenario_B_tfidf_is_not_3362 :
  ~ (exists r, Ascii.compare "Cats run." "Dogs run." = Ok r
               /\ stylistic r = 1
               /\ jaccard r = 3333 / 10000
               /\ tfidf r = 3362 / 10000).
Proof.
  intros (r & Hr & _ & _ & Ht). unfold Ascii.compare in Hr.
  destruct (compare_all_ok Ascii.isword Ascii.isspace Ascii.lower
              (text_of_string "Cats run.") (text_of_string "Dogs run."))
    as (s & j & _ & _ & _ & _ & Hall).
  rewrite Hall in Hr. injection Hr as <-. simpl in Ht.
  rewrite raw_vector_cats, raw_vector_dogs, tfidf_cats_dogs in Ht. lra.
Qed.

(** C2, amended.  For [text1 = "Cats run."] and [text2 = "Dogs run."]:
    both fingerprints are [[2.0, 3.5, 0.5, 1.0, 1.0]]; the words are
    [cats, run] and [dogs, run]; the vocabulary is [[cats, dogs, run]] with
    [idf(cats) = idf(dogs) = ln(3/2) + 1] and [idf(run) = 1.0]; and
    [compare_all] returns [stylistic = 1.0], [jaccard = 0.3333] and
    [tfidf = 0.3361]. *)
Theorem scenario_B :
  let text1 := text_of_string "Cats run." in
  let text2 := text_of_string "Dogs run." in
  let cats := text_of_string "cats" in
  let dogs := text_of_string "dogs" in
  let run := text_of_string "run" in
  Ascii.fingerprint "Cats run." = Ok [2; 7 / 2; 1 / 2; 1; 1]
  /\ Ascii.fingerprint "Dogs run." = Ok [2; 7 / 2; 1 / 2; 1; 1]
  /\ Ascii.words "Cats run." = [cats; run]
  /\ Ascii.words "Dogs run." = [dogs; run]
  /\ (exists self,
        TfIdfSimilarity_init Ascii.isword Ascii.lower [text1; text2] = Ok self
        /\ vocab self = [cats; dogs; run]
        /\ idf self !! cats = Some (ln (3 / 2) + 1)
        /\ idf self !! dogs = Some (ln (3 / 2) + 1)
        /\ idf self !! run = Some 1)
  /\ Ascii.compare "Cats run." "Dogs run."
     = Ok {| stylistic := 1; jaccard := 3333 / 10000; tfidf := 3361 / 10000 |}.
Proof.
  intros text1 text2 cats dogs run. subst text1 text2 cats dogs run.
  assert (Ascii.fingerprint "Cats run." = Ok [2; 7 / 2; 1 / 2; 1; 1]) as Hf1.
  { unfold Ascii.fingerprint.
    now rewrite compute_fingerprint_ok, features_cats_run, round_scenario_features. }
  assert (Ascii.fingerprint "Dogs run." = Ok [2; 7 / 2; 1 / 2; 1; 1]) as Hf2.
  { unfold Ascii.fingerprint.
    now rewrite compute_fingerprint_ok, features_dogs_run, round_scenario_features. }
  repeat split; try assumption; try (vm_compute; reflexivity).
  - eexists.
    split; [apply TfIdfSimilarity_init_ok |].
    split; [apply vocab_cats_dogs |].
    unfold tfidf_model, idf. rewrite vocab_cats_dogs.
    rewrite !lookup_comprehension
      by (apply (bool_decide_unpack _); vm_compute; exact I).
    unfold idf_value. eval_counts. simpl INR.
    replace ((1 + 1 + 1) / (1 + 1)) with (3 / 2) by lra.
    replace ((1 + 1 + 1) / (1 + 1 + 1)) with 1 by lra.
    rewrite ln_1. repeat split; f_equal; ring.
  - unfold Ascii.compare.
    rewrite (compare_all_unfold _ _ _ _ _ 1 (3333 / 10000)).
    + now rewrite raw_vector_cats, raw_vector_dogs, tfidf_cats_dogs.
    + rewrite features_cats_run, features_dogs_run, round_scenario_features.
      apply StylisticFingerprint_compare_same;
        [apply epsilon_pos | repeat constructor; lra | discriminate].
    + apply jaccard_cats_dogs.
Qed.

(** ** The rounded stylistic score 0.0 through [compare_all] *)

Lemma features_empty :
  features Ascii.isword Ascii.isspace Ascii.lower (text_of_string "") = [0; 0; 0; 0; 0].
Proof. unfold features, guarded_quotient. eval_counts. reflexivity. Qed.

Lemma features_a_dot :
  features Ascii.isword Ascii.isspace Ascii.lower (text_of_string "a.") = [1; 1; 1; 1; 1].
Proof.
  unfold features, guarded_quotient. eval_counts. simpl INR. repeat f_equal; lra.
Qed.

(** The empty text against ["a."]: the fingerprints are all zero and all
    one, and the stylistic score is [0.0]. *)
Lemma stylistic_zero_reachable :
  exists r, Ascii.compare "" "a." = Ok r /\ stylistic r = 0.
Proof.
  destruct (JaccardSimilarity_compute_unit Ascii.isword Ascii.lower
              (text_of_string "") (text_of_string "a.")) as (j & Hj & _).
  eexists. split.
  - unfold Ascii.compare. apply (compare_all_unfold _ _ _ _ _ 0 j); [| exact Hj].
    rewrite features_empty, features_a_dot. cbn [map].
    rewrite py_round_0, py_round_1. apply compare_zeros_ones.
  - reflexivity.
Qed.

(** ** The norm of a normalised vector on binary64 *)



(** ** Instances *)

(** C1, counterexample.  The text [" "] is not empty and has no word
    token: on [(" ", " ")] the [jaccard] score is [0.0], not [1.0]. *)
Lemma identity_fails_on_blank_text :
  ~ (text_of_string " " <> [] ->
     exists r, Ascii.compare " " " " = Ok r
               /\ jaccard r = 1 /\ tfidf r = 1 /\ stylistic r = 1).
Proof.
  intros H. destruct H as (r & Hr & Hj & _); [discriminate |].
  unfold Ascii.compare in Hr.
  rewrite (compare_all_same _ _ _ _ 0) in Hr.
  - injection Hr as <-. simpl in Hj. lra.
  - apply JaccardSimilarity_compute_nowords; vm_compute; reflexivity.
Qed.

(** Scenario A of the specification: a text with words against itself. *)
Lemma compare_all_identity_witness :
  Ascii.words "The cat sat on the mat." <> []
  /\ Ascii.compare "The cat sat on the mat." "The cat sat on the mat."
     = Ok {| stylistic := 1; jaccard := 1; tfidf := 1 |}.
Proof.
  assert (Ascii.words "The cat sat on the mat." <> []) as H
    by (vm_compute; discriminate).
  split; [exact H |].
  exact (compare_all_identity Ascii.isword Ascii.isspace Ascii.lower _ H).
Defined.

Lemma scores_in_unit_interval_witness :
  (exists r, Ascii.compare "Cats run." "Dogs run." = Ok r
             /\ 0 <= jaccard r <= 1 /\ 0 <= tfidf r <= 1)
  /\ (exists s, StylisticFingerprint_compare [0; 0; 0; 0; 0] [1; 1; 1; 1; 1] epsilon = Ok s
                /\ 0 <= s <= 1).
Proof.
  destruct (scores_in_unit_interval Ascii.isword Ascii.isspace Ascii.lower) as [H1 H2].
  split; [apply H1 |].
  apply H2; [reflexivity | reflexivity | repeat constructor; lra | repeat constructor; lra].
Defined.

Lemma compare_all_empty_witness :
  Ascii.lower [] = []
  /\ Ascii.compare "" "" = Ok {| stylistic := 1; jaccard := 0; tfidf := 0 |}.
Proof.
  split; [reflexivity |].
  exact (proj2 (proj2 (proj2
           (compare_all_empty Ascii.isword Ascii.isspace Ascii.lower eq_refl)))).
Defined.

Lemma compare_all_never_raises_witness :
  (exists r, Ascii.compare " " "." = Ok r /\ tfidf r = 0 /\ jaccard r = 0)
  /\ (exists fp, Ascii.fingerprint " " = Ok fp
                 /\ fp !! 0%nat = Some 0 /\ fp !! 1%nat = Some 0).
Proof.
  destruct (compare_all_never_raises Ascii.isword Ascii.isspace Ascii.lower
              (text_of_string " ") (text_of_string "."))
    as [(r & Hr & Hv & Hu) [Hfp _]].
  split.
  - exists r. split; [exact Hr |].
    split; [apply Hv | apply Hu]; vm_compute; reflexivity.
  - destruct (Hfp (text_of_string " ")) as (fp & Hf & _ & Hs & Hw).
    exists fp. split; [exact Hf |]. split.
    + apply Hs. vm_compute. reflexivity.
    + apply Hw. vm_compute. reflexivity.
Defined.

Lemma idf_weight_formula_witness :
  text_of_string "run"
  ∈ build_vocab Ascii.isword Ascii.lower
      [text_of_string "Cats run."; text_of_string "Dogs run."]
  /\ exists self,
       TfIdfSimilarity_init Ascii.isword Ascii.lower
         [text_of_string "Cats run."; text_of_string "Dogs run."] = Ok self
       /\ idf self !! text_of_string "run" = Some 1.
Proof.
  assert (text_of_string "run"
          ∈ build_vocab Ascii.isword Ascii.lower
              [text_of_string "Cats run."; text_of_string "Dogs run."]) as Hin
    by (apply (bool_decide_unpack _); vm_compute; exact I).
  split; [exact Hin |].
  pose proof (idf_weight_formula Ascii.isword Ascii.lower _ _ Hin) as H.
  cbv zeta in H. destruct H as (self & Hinit & _ & _ & _ & Hall).
  exists self. split; [exact Hinit |]. apply Hall. vm_compute. reflexivity.
Defined.

Lemma TfIdfSimilarity_compare_total_witness :
  TfIdfSimilarity_compare [1; 2] [3] = py_round (dot [1] [3]) 4
  /\ TfIdfSimilarity_compare [] [3] = 0.
Proof.
  split.
  - apply (proj1 (TfIdfSimilarity_compare_total [1; 2] [3])); discriminate.
  - apply (proj2 (TfIdfSimilarity_compare_total [] [3])). left. reflexivity.
Defined.

(** * Further properties of the engine *)

(** ** The tokenizer *)

Section Tokenizer.

Variable cls : char -> bool.

Lemma runs_from_sep (s1 s2 cur : text) (c : char) :
  cls c = false ->
  runs_from cls (s1 ++ c :: s2) cur = runs_from cls s1 cur ++ runs_from cls s2 [].
Proof.
  intros Hc. revert cur. induction s1 as [| x s1 IH]; intros cur; simpl.
  - rewrite Hc. now destruct cur.
  - destruct (cls x); [apply IH |].
    destruct cur; [apply IH | simpl; f_equal; apply IH].
Qed.

Lemma runs_from_all (s cur : text) :
  Forall (fun c => cls c = true) s ->
  runs_from cls s cur = match rev cur ++ s with [] => [] | w => [w] end.
Proof.
  intros Hs. revert cur. induction Hs as [| x s Hx Hs IH]; intros cur; simpl.
  - rewrite app_nil_r. destruct cur as [| c cur]; [reflexivity |].
    simpl. now destruct (rev cur ++ [c]) eqn:E; [destruct (rev cur); discriminate E |].
  - rewrite Hx, IH. simpl. now rewrite <- app_assoc.
Qed.

Lemma runs_from_tokens (s cur : text) :
  Forall (fun c => cls c = true) cur ->
  Forall (fun w => w <> [] /\ Forall (fun c => cls c = true) w) (runs_from cls s cur)
  /\ concat (runs_from cls s cur) = rev cur ++ findall_chars cls s.
Proof.
  unfold findall_chars, text. revert cur.
  induction s as [| x s IH]; intros cur Hcur; cbn [runs_from].
  - rewrite filter_nil.
    destruct cur as [| c cur]; [split; [constructor | reflexivity] |].
    split; [| simpl; now rewrite !app_nil_r].
    constructor; [| constructor]. split.
    + simpl. now destruct (rev cur).
    + now apply Forall_rev.
  - destruct (cls x) eqn:Hx.
    + rewrite filter_cons_True by now rewrite Hx.
      destruct (IH (x :: cur)) as [H1 H2]; [now constructor |].
      split; [assumption |]. rewrite H2. simpl. now rewrite <- app_assoc.
    + rewrite filter_cons_False by now rewrite Hx.
      destruct (IH []) as [H1 H2]; [constructor |]. simpl in H2.
      destruct cur as [| c cur]; [split; assumption |].
      split.
      * constructor; [| assumption]. split.
        -- simpl. now destruct (rev cur).
        -- now apply Forall_rev.
      * simpl concat. now rewrite H2.
Qed.

Lemma re_split_from_sep (s1 s2 cur : text) (c : char) :
  cls c = true ->
  re_split_from cls (s1 ++ c :: s2) cur
  = re_split_from cls s1 cur ++ re_split_from cls s2 [].
Proof.
  intros Hc. revert cur. induction s1 as [| x s1 IH]; intros cur; simpl.
  - now rewrite Hc.
  - destruct (cls x); [simpl; f_equal |]; apply IH.
Qed.

Lemma re_split_from_none (s cur : text) :
  Forall (fun c => cls c = false) s -> re_split_from cls s cur = [rev cur ++ s].
Proof.
  intros Hs. revert cur. induction Hs as [| x s Hx Hs IH]; intros cur; simpl.
  - now rewrite app_nil_r.
  - rewrite Hx, IH. simpl. now rewrite <- app_assoc.
Qed.

Lemma re_split_from_pieces (s cur : text) :
  Forall (fun c => cls c = false) cur ->
  Forall (Forall (fun c => cls c = false)) (re_split_from cls s cur)
  /\ length (re_split_from cls s cur) = S (length (findall_chars cls s)).
Proof.
  unfold findall_chars, text. revert cur.
  induction s as [| x s IH]; intros cur Hcur; cbn [re_split_from].
  - split; [| reflexivity]. constructor; [now apply Forall_rev | constructor].
  - destruct (cls x) eqn:Hx.
    + rewrite filter_cons_True by now rewrite Hx.
      destruct (IH []) as [H1 H2]; [constructor |].
      split; [constructor; [now apply Forall_rev | assumption] |].
      simpl. now rewrite H2.
    + rewrite filter_cons_False by now rewrite Hx.
      apply IH. now constructor.
Qed.

End Tokenizer.

Lemma last_rev {A : Type} (l : list A) : last (rev l) = head l.
Proof. destruct l as [| x l]; [reflexivity |]. simpl. apply last_snoc. Qed.

Lemma head_rev {A : Type} (l : list A) : head (rev l) = last l.
Proof. rewrite <- (rev_involutive l) at 2. now rewrite last_rev. Qed.

Lemma runs_nonempty (cls : char -> bool) (s : text) (c : char) :
  c ∈ s -> cls c = true -> (1 <= length (runs cls s))%nat.
Proof.
  intros Hin Hc.
  destruct (runs_from_tokens cls s []) as [_ Hcat]; [constructor |].
  fold (runs cls s) in Hcat. simpl in Hcat.
  assert (c ∈ findall_chars cls s) as Hf.
  { unfold findall_chars. apply list_elem_of_filter. split; [now rewrite Hc | assumption]. }
  destruct (runs cls s) as [| w ws]; [| simpl; lia].
  simpl in Hcat. rewrite <- Hcat in Hf. now apply not_elem_of_nil in Hf.
Qed.

Lemma sum_list_ge_length {A : Type} (f : A -> nat) (l : list A) :
  Forall (fun x => (1 <= f x)%nat) l -> (length l <= sum_list (map f l))%nat.
Proof. induction 1 as [| x l Hx Hl IH]; simpl; lia. Qed.

Lemma size_list_to_set_le (l : list text) :
  (size (list_to_set l : gset text) <= length l)%nat.
Proof.
  induction l as [| x l IH]; [now rewrite list_to_set_nil, size_empty |].
  rewrite list_to_set_cons, size_union_alt, size_singleton. simpl.
  assert (size ((list_to_set l : gset text) ∖ {[x]}) <= size (list_to_set l : gset text))%nat
    by (apply subseteq_size; intros y Hy; now apply elem_of_difference in Hy as [Hy _]).
  lia.
Qed.

Lemma py_round_ge_1 (x : R) (n : nat) : 1 <= x -> 1 <= py_round x n.
Proof.
  intros Hx. unfold py_round. pose proof (pow10_pos n) as Hp.
  assert (10 ^ n = IZR (10 ^ Z.of_nat n)) as Hpow by now rewrite <- pow_IZR.
  assert (10 ^ Z.of_nat n <= round_half_even (x * 10 ^ n))%Z as Hlo.
  { apply round_half_even_ge. rewrite <- Hpow. nra. }
  apply IZR_le in Hlo. rewrite <- Hpow in Hlo.
  apply Rmult_le_reg_r with (10 ^ n); [lra |].
  unfold Rdiv. rewrite Rmult_assoc, Rinv_l; lra.
Qed.

Section EngineExtras.

Variable isword : char -> bool.
Variable isspace : char -> bool.
Variable lower : text -> text.

Local Abbreviation words t := (findall_words isword (lower t)).
Local Abbreviation sentences t := (sentences_of isspace t).
Local Abbreviation fingerprint t := (compute_fingerprint isword isspace lower t).

(** X1.  [re.findall(r"\b\w+\b", s)]: every token is a non-empty run of
    word characters, and the tokens put end to end are the word characters
    of [s], in order. *)
Theorem findall_words_tokens (s : text) :
  Forall (fun w => w <> [] /\ Forall (fun c => isword c = true) w) (findall_words isword s)
  /\ concat (findall_words isword s) = findall_chars isword s.
Proof. apply (runs_from_tokens isword s []). constructor. Qed.

(** X2.  The tokens are the maximal runs: a non-empty text of word
    characters is one token, and a character that is not a word character
    separates the tokens before it from the tokens after it. *)
Theorem findall_words_maximal :
  (forall s, s <> [] -> Forall (fun c => isword c = true) s ->
             findall_words isword s = [s])
  /\ (forall s1 c s2, isword c = false ->
        findall_words isword (s1 ++ c :: s2)
        = findall_words isword s1 ++ findall_words isword s2).
Proof.
  split.
  - intros s Hne Hs. unfold findall_words, runs. rewrite runs_from_all by assumption.
    simpl. now destruct s.
  - intros s1 c s2 Hc. now apply runs_from_sep.
Qed.

(** X3.  [re.split(r'[.!?]', s)]: no piece holds a terminator, there is
    one piece more than there are terminators, a text without terminator is
    its own single piece, and a terminator ends the pieces before it and
    starts a fresh one. *)
Theorem re_split_pieces :
  (forall s,
     Forall (Forall (fun c => is_sentence_end c = false)) (re_split is_sentence_end s)
     /\ length (re_split is_sentence_end s)
        = S (length (findall_chars is_sentence_end s)))
  /\ (forall s, Forall (fun c => is_sentence_end c = false) s ->
                re_split is_sentence_end s = [s])
  /\ (forall s1 c s2, is_sentence_end c = true ->
        re_split is_sentence_end (s1 ++ c :: s2)
        = re_split is_sentence_end s1 ++ re_split is_sentence_end s2).
Proof.
  split; [| split].
  - intros s. apply (re_split_from_pieces is_sentence_end s []). constructor.
  - intros s Hs. unfold re_split. now rewrite re_split_from_none.
  - intros s1 c s2 Hc. now apply re_split_from_sep.
Qed.

Lemma lstrip_spec (s : text) :
  exists pre, s = pre ++ lstrip isspace s
              /\ Forall (fun c => isspace c = true) pre
              /\ (forall c, head (lstrip isspace s) = Some c -> isspace c = false).
Proof.
  induction s as [| x s (pre & E & Hpre & Hhead)]; simpl.
  - exists []. repeat split; [constructor | discriminate].
  - destruct (isspace x) eqn:Hx.
    + exists (x :: pre). split; [simpl; now f_equal |]. split; [now constructor | assumption].
    + exists []. split; [reflexivity |]. split; [constructor |].
      intros c [= <-]. assumption.
Qed.

Lemma strip_parts (s : text) :
  exists pre post,
    s = pre ++ strip isspace s ++ post
    /\ Forall (fun c => isspace c = true) pre
    /\ Forall (fun c => isspace c = true) post
    /\ (forall c, head (strip isspace s) = Some c -> isspace c = false)
    /\ (forall c, last (strip isspace s) = Some c -> isspace c = false).
Proof.
  unfold strip.
  destruct (lstrip_spec s) as (pre & E1 & Hpre & Hhead).
  destruct (lstrip_spec (rev (lstrip isspace s))) as (q & E2 & Hq & Hlast).
  set (m := lstrip isspace s) in *. set (k := lstrip isspace (rev m)) in *.
  assert (m = rev k ++ rev q) as Em.
  { rewrite <- rev_app_distr, <- E2. now rewrite rev_involutive. }
  exists pre, (rev q). split; [now rewrite <- Em |].
  split; [assumption |]. split; [now apply Forall_rev |]. split.
  - intros c Hc. apply Hhead. rewrite Em.
    destruct (rev k) as [| y r]; [discriminate Hc | exact Hc].
  - intros c Hc. apply Hlast. now rewrite last_rev in Hc.
Qed.

(** X4.  [s.strip()] cuts a run of whitespace from each end of [s] and
    nothing else: the result neither starts nor ends with whitespace. *)
Theorem strip_spec (s : text) :
  exists pre post,
    s = pre ++ strip isspace s ++ post
    /\ Forall (fun c => isspace c = true) pre
    /\ Forall (fun c => isspace c = true) post
    /\ (forall c, head (strip isspace s) = Some c -> isspace c = false)
    /\ (forall c, last (strip isspace s) = Some c -> isspace c = false).
Proof. exact (strip_parts s). Qed.

Lemma sentences_of_elem (t x : text) :
  x ∈ sentences t ->
  exists p, x = strip isspace p /\ x <> []
            /\ Forall (fun c => is_sentence_end c = false) p.
Proof.
  unfold sentences_of. intros Hx.
  apply list_elem_of_fmap in Hx as (p & -> & Hp).
  apply list_elem_of_filter in Hp as [Htr Hp].
  exists p. split; [reflexivity |]. split.
  - intros E. rewrite E in Htr. exact Htr.
  - destruct (re_split_from_pieces is_sentence_end t []) as [Hall _]; [constructor |].
    rewrite Forall_forall in Hall. now apply Hall.
Qed.

Lemma sentences_of_facts (t : text) :
  Forall (fun x =>
            x <> []
            /\ Forall (fun c => is_sentence_end c = false) x
            /\ (forall c, head x = Some c -> isspace c = false)
            /\ (forall c, last x = Some c -> isspace c = false)
            /\ (1 <= length (split isspace x))%nat)
         (sentences t)
  /\ (length (sentences t) <= S (length (findall_chars is_sentence_end t)))%nat.
Proof.
  split.
  - apply Forall_forall. intros x Hx.
    destruct (sentences_of_elem t x Hx) as (p & -> & Hne & Hp).
    destruct (strip_parts p) as (pre & post & E & _ & _ & Hhead & Hlast).
    split; [assumption |]. split.
    + rewrite E in Hp. apply Forall_app in Hp as [_ Hp].
      now apply Forall_app in Hp as [Hp _].
    + split; [assumption |]. split; [assumption |].
      destruct (strip isspace p) as [| c r] eqn:Es; [congruence |].
      apply (runs_nonempty _ _ c); [left |].
      now rewrite (Hhead c eq_refl).
  - unfold sentences_of. rewrite length_map.
    etransitivity; [apply length_filter |].
    destruct (re_split_from_pieces is_sentence_end t []) as [_ Hlen]; [constructor |].
    unfold re_split. now rewrite Hlen.
Qed.

(** X5.  The sentences of a text: each one is non-empty, holds no
    terminator, neither starts nor ends with whitespace, and counts at least
    one whitespace-separated word; there are at most as many sentences as
    terminators plus one. *)
Theorem sentences_of_spec (t : text) :
  Forall (fun x =>
            x <> []
            /\ Forall (fun c => is_sentence_end c = false) x
            /\ (forall c, head x = Some c -> isspace c = false)
            /\ (forall c, last x = Some c -> isspace c = false)
            /\ (1 <= length (split isspace x))%nat)
         (sentences t)
  /\ (length (sentences t) <= S (length (findall_chars is_sentence_end t)))%nat.
Proof. exact (sentences_of_facts t). Qed.

Lemma quotient_ge_1 (num den : R) : 0 < den -> den <= num -> 1 <= num / den.
Proof.
  intros Hd Hle. apply Rmult_le_reg_r with den; [assumption |].
  unfold Rdiv. rewrite Rmult_assoc, Rinv_l; lra.
Qed.

Lemma quotient_unit (num den : R) : 0 < den -> 0 <= num <= den -> 0 <= num / den <= 1.
Proof.
  intros Hd [H0 Hle]. split.
  - apply Rmult_le_pos; [assumption | left; now apply Rinv_0_lt_compat].
  - apply Rmult_le_reg_r with den; [assumption |].
    unfold Rdiv. rewrite Rmult_assoc, Rinv_l; lra.
Qed.

Lemma guarded_quotient_cases {A : Type} (l : list A) (num : R) :
  (l = [] /\ guarded_quotient l num = 0)
  \/ (0 < len l /\ guarded_quotient l num = num / len l).
Proof.
  destruct l as [| a l]; [left; split; reflexivity | right].
  split; [| reflexivity]. now apply truthy_len.
Qed.

(** X6.  The fingerprint of any text: the average sentence length and the
    average word length are [0.0] or at least [1.0], the punctuation density
    is non-negative, and the lexical diversity and the short-sentence ratio
    lie in [[0, 1]]. *)
Theorem fingerprint_ranges (t : text) :
  exists a b c d e,
    fingerprint t = Ok [a; b; c; d; e]
    /\ (a = 0 \/ 1 <= a)
    /\ (b = 0 \/ 1 <= b)
    /\ 0 <= c
    /\ 0 <= d <= 1
    /\ 0 <= e <= 1.
Proof.
  do 5 eexists. split; [rewrite compute_fingerprint_ok; unfold features; reflexivity |].
  destruct (sentences_of_facts t) as [Hsent _].
  destruct (runs_from_tokens isword (lower t) []) as [Htok _]; [constructor |].
  fold (runs isword (lower t)) in Htok. fold (findall_words isword (lower t)) in Htok.
  split; [| split; [| split; [| split]]].
  - destruct (guarded_quotient_cases (sentences t)
                (INR (sum_list (map (fun s => length (split isspace s)) (sentences t)))))
      as [[_ ->] | [Hlen ->]]; [left; apply py_round_0 | right].
    apply py_round_ge_1, quotient_ge_1; [assumption |].
    apply le_INR, sum_list_ge_length.
    eapply Forall_impl; [exact Hsent |]. intros x (_ & _ & _ & _ & Hx). exact Hx.
  - destruct (guarded_quotient_cases (words t) (INR (sum_list (map length (words t)))))
      as [[_ ->] | [Hlen ->]]; [left; apply py_round_0 | right].
    apply py_round_ge_1, quotient_ge_1; [assumption |].
    apply le_INR, sum_list_ge_length.
    eapply Forall_impl; [exact Htok |]. intros w [Hw _]. simpl.
    destruct w; [congruence | simpl; lia].
  - apply py_round_nonneg, guarded_quotient_nonneg, len_nonneg.
  - destruct (guarded_quotient_cases (words t)
                (INR (size (list_to_set (words t) : gset text))))
      as [[_ ->] | [Hlen ->]]; [rewrite py_round_0; lra |].
    apply py_round_unit, quotient_unit; [assumption |].
    split; [apply pos_INR | apply le_INR, size_list_to_set_le].
  - destruct (guarded_quotient_cases (sentences t)
                (len (filter (fun s => (length (split isspace s) < 5)%nat) (sentences t))))
      as [[_ ->] | [Hlen ->]]; [rewrite py_round_0; lra |].
    apply py_round_unit, quotient_unit; [assumption |].
    split; [apply len_nonneg | apply le_INR, length_filter].
Qed.

(** ** StylisticFingerprint.compare on arbitrary vectors *)

Lemma zip_take_min {A B : Type} (l : list A) (k : list B) :
  zip l k = zip (take (min (length l) (length k)) l) (take (min (length l) (length k)) k).
Proof.
  revert k. induction l as [| a l IH]; intros [| b k]; try reflexivity.
  simpl. f_equal. apply IH.
Qed.

(** X7.  Vectors of unequal lengths are compared on their common prefix:
    the components beyond the shorter length change nothing, not even
    whether the call raises. *)
Theorem StylisticFingerprint_compare_prefix (fp1 fp2 : list R) (eps : R) :
  let n := min (length fp1) (length fp2) in
  StylisticFingerprint_compare fp1 fp2 eps
  = StylisticFingerprint_compare (take n fp1) (take n fp2) eps.
Proof.
  intros n. unfold StylisticFingerprint_compare.
  now rewrite (zip_take_min fp1 fp2).
Qed.

(** X8.  A pair of components, not both zero, whose maximum is [-epsilon]
    makes the call raise [ZeroDivisionError], whatever follows in the two
    vectors. *)
Theorem StylisticFingerprint_compare_raises (a b eps : R) (rest1 rest2 : list R) :
  py_max a b + eps = 0 -> ~ (a = 0 /\ b = 0) ->
  StylisticFingerprint_compare (a :: rest1) (b :: rest2) eps = Raise ZeroDivisionError.
Proof.
  intros Hmax Hnz. unfold StylisticFingerprint_compare.
  rewrite zip_cons, list_comp_cons.
  assert (diff_of eps (a, b) = Raise ZeroDivisionError) as ->; [| reflexivity].
  unfold diff_of. destruct (decide _) as [H0 | _]; [contradiction |].
  unfold truediv. now destruct (Req_dec_T _ _).
Qed.

Lemma StylisticFingerprint_compare_raises_witness :
  StylisticFingerprint_compare [- epsilon; 1] [- epsilon; 1] epsilon
  = Raise ZeroDivisionError.
Proof.
  pose proof epsilon_pos as He.
  apply StylisticFingerprint_compare_raises.
  - unfold py_max. destruct (Rlt_dec _ _); lra.
  - intros [H0 _]. lra.
Defined.

Lemma diff_of_unit_closed (eps a b : R) :
  0 <= eps -> 0 <= a -> 0 <= b ->
  exists d, diff_of eps (a, b) = Ok d /\ 0 <= d <= 1.
Proof.
  intros He Ha Hb. unfold diff_of.
  destruct (decide (a = 0 ∧ b = 0)) as [H0 | H0]; [exists 0; split; [reflexivity | lra] |].
  pose proof (py_max_ge a b) as [Hma Hmb].
  assert (0 < py_max a b) as Hpos.
  { destruct (Req_dec_T a 0) as [-> | Ha0]; [| lra].
    destruct (Req_dec_T b 0) as [-> | Hb0]; [tauto | lra]. }
  exists (Rabs (a - b) / (py_max a b + eps)). split.
  - apply truediv_ok. lra.
  - apply quotient_unit; [lra |]. split; [apply Rabs_pos |].
    unfold Rabs. destruct (Rcase_abs _); lra.
Qed.

Lemma diffs_unit_closed (eps : R) (fp1 fp2 : list R) :
  0 <= eps -> Forall (fun x => 0 <= x) fp1 -> Forall (fun x => 0 <= x) fp2 ->
  exists ds, list_comp (diff_of eps) (zip fp1 fp2) = Ok ds
             /\ Forall (fun d => 0 <= d <= 1) ds.
Proof.
  intros He H1. revert fp2. induction H1 as [| a fp1 Ha H1 IH]; intros fp2 H2.
  - exists []. split; [reflexivity | constructor].
  - destruct H2 as [| b fp2 Hb H2]; [exists []; split; [reflexivity | constructor] |].
    destruct (diff_of_unit_closed eps a b He Ha Hb) as (d & Hd & Hdu).
    destruct (IH fp2 H2) as (ds & Hds & Hdsu).
    exists (d :: ds). split; [| now constructor].
    now rewrite zip_cons, list_comp_cons, Hd, Hds.
Qed.

Lemma fsum_unit_closed (ds : list R) :
  Forall (fun d => 0 <= d <= 1) ds -> 0 <= fsum ds <= len ds.
Proof.
  induction 1 as [| d ds Hd Hds IH]; unfold len in *.
  - unfold fsum. simpl. lra.
  - rewrite fsum_cons.
    change (length (d :: ds)) with (S (length ds)). rewrite S_INR. lra.
Qed.

(** X9.  With any [epsilon >= 0], zero included, and vectors of
    non-negative components of any lengths, the call returns a score in
    [[0, 1]]: the both-zero test is what keeps the division defined. *)
Theorem StylisticFingerprint_compare_nonneg (fp1 fp2 : list R) (eps : R) :
  0 <= eps -> Forall (fun x => 0 <= x) fp1 -> Forall (fun x => 0 <= x) fp2 ->
  exists s, StylisticFingerprint_compare fp1 fp2 eps = Ok s /\ 0 <= s <= 1.
Proof.
  intros He H1 H2. unfold StylisticFingerprint_compare.
  destruct (diffs_unit_closed eps fp1 fp2 He H1 H2) as (ds & -> & Hds).
  rewrite bind_Ok. destruct (truthy ds) eqn:Hne.
  - pose proof (truthy_len ds Hne) as Hlen.
    pose proof (fsum_unit_closed ds Hds) as Hs.
    rewrite truediv_ok by lra. rewrite !bind_Ok.
    eexists. split; [reflexivity |]. apply py_round_unit.
    pose proof (quotient_unit (fsum ds) (len ds) Hlen Hs). lra.
  - rewrite bind_Ok. exists (py_round 0 4). split; [reflexivity |].
    rewrite py_round_0. lra.
Qed.

Lemma StylisticFingerprint_compare_nonneg_witness :
  exists s, StylisticFingerprint_compare [0; 1; 2] [0; 3] 0 = Ok s /\ 0 <= s <= 1.
Proof.
  apply StylisticFingerprint_compare_nonneg; [lra | |]; repeat constructor; lra.
Defined.

(** ** JaccardSimilarity on texts with disjoint or equal word sets *)

Lemma jaccard_disjoint (a b : text) :
  (forall w, w ∈ words a -> w ∉ words b) ->
  JaccardSimilarity_compute isword lower a b = Ok 0.
Proof.
  intros Hdis. unfold JaccardSimilarity_compute.
  set (s1 := list_to_set (words a) : gset text).
  set (s2 := list_to_set (words b) : gset text).
  assert (s1 ∩ s2 = ∅) as Hi.
  { apply leibniz_equiv, elem_of_equiv_empty. intros w Hw.
    apply elem_of_intersection in Hw as [Ha Hb].
    apply elem_of_list_to_set in Ha, Hb. now apply (Hdis w). }
  destruct (decide (s1 ∪ s2 ≠ ∅)) as [Hne | _]; [| reflexivity].
  pose proof (gset_size_pos _ Hne) as Hpos.
  rewrite truediv_ok by lra. rewrite bind_Ok, Hi, size_empty. f_equal.
  replace (INR 0 / INR (size (s1 ∪ s2))) with 0 by (simpl; unfold Rdiv; ring).
  apply py_round_0.
Qed.

(** X10.  Two texts without a common word have Jaccard score [0.0]. *)
Theorem JaccardSimilarity_compute_disjoint (a b : text) :
  (forall w, w ∈ words a -> w ∉ words b) ->
  JaccardSimilarity_compute isword lower a b = Ok 0.
Proof. exact (jaccard_disjoint a b). Qed.

Lemma jaccard_same_words (a b : text) :
  (forall w, w ∈ words a <-> w ∈ words b) -> words a <> [] ->
  JaccardSimilarity_compute isword lower a b = Ok 1.
Proof.
  intros Hsame Hne. unfold JaccardSimilarity_compute.
  assert ((list_to_set (words b) : gset text) = list_to_set (words a)) as ->.
  { apply leibniz_equiv. intros w. rewrite !elem_of_list_to_set. symmetry. apply Hsame. }
  rewrite union_idemp_L, intersection_idemp_L.
  pose proof (list_to_set_nonempty lower _ Hne) as Hs.
  destruct (decide _) as [_ | Hn]; [| contradiction].
  pose proof (gset_size_pos _ Hs) as Hpos.
  rewrite truediv_ok by lra. rewrite bind_Ok. f_equal.
  unfold Rdiv. rewrite Rinv_r by lra. apply py_round_1.
Qed.

(** X11.  Two texts with the same set of words, at least one word, have
    Jaccard score [1.0], whatever the order and the number of occurrences
    of the words. *)
Theorem JaccardSimilarity_compute_same_words (a b : text) :
  (forall w, w ∈ words a <-> w ∈ words b) -> words a <> [] ->
  JaccardSimilarity_compute isword lower a b = Ok 1.
Proof. exact (jaccard_same_words a b). Qed.


(** ** The vocabulary *)

Lemma text_leb_total (a b : text) : text_leb a b = true \/ text_leb b a = true.
Proof.
  revert b. induction a as [| x a IH]; intros [| y b]; simpl; auto.
  destruct (N.ltb_spec x y), (N.ltb_spec y x), (N.eqb_spec x y), (N.eqb_spec y x);
    auto; lia.
Qed.

Lemma text_leb_trans (a b c : text) :
  text_leb a b = true -> text_leb b c = true -> text_leb a c = true.
Proof.
  revert b c. induction a as [| x a IH]; intros [| y b] [| z c]; simpl; try discriminate; auto.
  destruct (N.ltb_spec x y), (N.ltb_spec y z), (N.ltb_spec x z),
    (N.eqb_spec x y), (N.eqb_spec y z), (N.eqb_spec x z);
    try discriminate; auto; try lia.
  apply IH.
Qed.

#[local] Instance text_le_total : Total text_le.
Proof.
  intros a b. unfold text_le.
  destruct (text_leb_total a b) as [-> | ->]; [left | right]; exact I.
Qed.

#[local] Instance text_le_trans : Transitive text_le.
Proof.
  intros a b c. unfold text_le. intros H1 H2.
  apply Is_true_true in H1, H2. apply Is_true_true. now apply (text_leb_trans a b c).
Qed.

Lemma StronglySorted_strict (l : list text) :
  StronglySorted text_le l -> NoDup l ->
  StronglySorted (fun x y => text_le x y /\ x <> y) l.
Proof.
  induction 1 as [| x l Hl IH Hx]; intros Hnd; [constructor |].
  apply NoDup_cons in Hnd as [Hnin Hnd]. constructor; [now apply IH |].
  rewrite Forall_forall in Hx |- *. intros y Hy. split; [now apply Hx |].
  intros ->. contradiction.
Qed.

(** X12.  The vocabulary is strictly ascending in the order of [str]
    (so it has no duplicate), and it holds exactly the tokens of the
    texts. *)
Theorem build_vocab_sorted (ts : list text) :
  StronglySorted (fun x y => text_le x y /\ x <> y) (build_vocab isword lower ts)
  /\ (forall w, w ∈ build_vocab isword lower ts <-> exists t, t ∈ ts /\ w ∈ words t).
Proof.
  split; [| intros w; apply elem_of_build_vocab].
  unfold build_vocab, sorted. apply StronglySorted_strict.
  - apply StronglySorted_merge_sort; apply _.
  - rewrite merge_sort_Permutation. apply NoDup_elements.
Qed.

(** ** Inverse document frequency over two texts *)

Lemma doc_freq_pair (a b w : text) :
  doc_freq isword lower [a; b] w
  = ((if decide (w ∈ words a) then 1 else 0) + (if decide (w ∈ words b) then 1 else 0))%nat.
Proof.
  unfold doc_freq, tokenize. simpl map. rewrite !filter_cons, filter_nil.
  now destruct (decide (w ∈ words a)), (decide (w ∈ words b)).
Qed.

(** X13.  Over the two texts of [compare_all], the weight of a vocabulary
    term is [1] when both texts hold the term and [ln(3/2) + 1] when only
    one does. *)
Theorem idf_two_texts (a b w : text) :
  w ∈ build_vocab isword lower [a; b] ->
  exists self,
    TfIdfSimilarity_init isword lower [a; b] = Ok self
    /\ idf self !! w
       = Some (if decide (w ∈ words a /\ w ∈ words b) then 1 else ln (3 / 2) + 1).
Proof.
  intros Hw. exists (tfidf_model isword lower [a; b]).
  split; [apply TfIdfSimilarity_init_ok |].
  unfold tfidf_model, idf. rewrite lookup_comprehension by assumption. f_equal.
  unfold idf_value. rewrite doc_freq_pair.
  apply elem_of_build_vocab in Hw as (t & Ht & Hw).
  assert (w ∈ words a \/ w ∈ words b) as Hor.
  { apply elem_of_cons in Ht as [-> | Ht]; [now left |].
    apply elem_of_cons in Ht as [-> | Ht]; [now right | now apply not_elem_of_nil in Ht]. }
  destruct (decide (w ∈ words a)) as [Ha | Ha], (decide (w ∈ words b)) as [Hb | Hb];
    destruct (decide (w ∈ words a /\ w ∈ words b)) as [Hab | Hab]; try tauto; simpl INR.
  - replace ((1 + 1 + 1) / (1 + 1 + 1)) with 1 by lra. rewrite ln_1. ring.
  - replace ((1 + 1 + 1) / (1 + 1)) with (3 / 2) by lra. reflexivity.
  - replace ((1 + 1 + 1) / (1 + 1)) with (3 / 2) by lra. reflexivity.
Qed.

(** ** The vectors and their dot product *)

Lemma normalize_unit_components (vec : list R) :
  Forall (fun x => 0 <= x) vec -> Forall (fun x => 0 <= x <= 1) (normalize vec).
Proof.
  intros Hv. destruct (decide (l2norm vec = 0)) as [H0 | Hn].
  - destruct (normalize_zero vec H0) as [-> Hz].
    eapply Forall_impl; [exact Hz |]. intros x ->. simpl. lra.
  - unfold normalize. destruct (decide _) as [_ | H]; [| contradiction].
    pose proof (l2norm_nonneg vec) as Hp. pose proof (l2norm_sqr vec) as Hs.
    apply Forall_fmap, Forall_forall. intros x Hx. simpl.
    rewrite Forall_forall in Hv. specialize (Hv x Hx).
    apply fsum_squares_elem in Hx.
    apply quotient_unit; [lra |]. split; [assumption | nra].
Qed.

(** X14.  [compute_vectors] returns one vector per text, in the order of
    the texts, and every component of every vector lies in [[0, 1]]. *)
Theorem compute_vectors_components (ts : list text) :
  exists self vs,
    TfIdfSimilarity_init isword lower ts = Ok self
    /\ compute_vectors isword lower self = Ok vs
    /\ length vs = length ts
    /\ Forall (Forall (fun x => 0 <= x <= 1)) vs.
Proof.
  exists (tfidf_model isword lower ts). eexists.
  split; [apply TfIdfSimilarity_init_ok |]. split; [apply compute_vectors_ok |].
  split; [apply length_map |].
  apply Forall_fmap, Forall_forall. intros t _. simpl.
  apply normalize_unit_components, raw_vector_nonneg.
Qed.

Lemma dot_map {A : Type} (f g : A -> R) (l : list A) :
  dot (map f l) (map g l) = fsum (map (fun x => f x * g x) l).
Proof.
  induction l as [| x l IH]; [reflexivity |].
  now rewrite !map_cons, dot_cons, fsum_cons, IH.
Qed.

Lemma normalize_scale (vec : list R) :
  exists k, normalize vec = map (fun x => x * k) vec.
Proof.
  unfold normalize. destruct (decide _) as [Hn | _].
  - exists (/ l2norm vec). reflexivity.
  - exists 1. rewrite <- (map_id vec) at 1. apply map_ext. intros x. ring.
Qed.

Lemma dot_scale (v1 v2 : list R) (k1 k2 : R) :
  dot (map (fun x => x * k1) v1) (map (fun x => x * k2) v2) = k1 * k2 * dot v1 v2.
Proof.
  revert v2. induction v1 as [| a v1 IH]; intros [| b v2].
  - simpl map. rewrite !dot_nil_l. ring.
  - simpl map. rewrite !dot_nil_l. ring.
  - simpl map. rewrite !dot_nil_r. ring.
  - rewrite !map_cons, !dot_cons, IH. ring.
Qed.

Lemma count_0 (w : text) (l : list text) : w ∉ l -> count w l = 0%nat.
Proof.
  intros Hw. unfold count.
  destruct (filter (w =.) l) as [| x r] eqn:E; [reflexivity |].
  assert (x ∈ filter (w =.) l) as Hx by (rewrite E; left).
  apply list_elem_of_filter in Hx as [<- Hx]. contradiction.
Qed.

(** X15.  Two texts without a common word: [compare_all] returns
    [jaccard = 0.0] and [tfidf = 0.0]. *)
Theorem compare_all_disjoint (a b : text) :
  (forall w, w ∈ words a -> w ∉ words b) ->
  exists r, compare_all isword isspace lower a b = Ok r
            /\ jaccard r = 0 /\ tfidf r = 0.
Proof.
  intros Hdis.
  destruct (compare_all_ok isword isspace lower a b) as (s & j & _ & Hj & _ & _ & ->).
  eexists. split; [reflexivity |]. simpl. split.
  - rewrite (jaccard_disjoint a b Hdis) in Hj. congruence.
  - rewrite TfIdfSimilarity_compare_dot.
    destruct (truthy _ && truthy _); [| reflexivity].
    destruct (normalize_scale (raw_vector isword lower [a; b] a)) as (k1 & ->).
    destruct (normalize_scale (raw_vector isword lower [a; b] b)) as (k2 & ->).
    rewrite dot_scale. unfold raw_vector. rewrite dot_map.
    replace (fsum _) with 0; [rewrite Rmult_0_r; apply py_round_0 |].
    symmetry. rewrite <- (fsum_zeros (build_vocab isword lower [a; b])).
    f_equal. apply map_ext. intros w.
    destruct (decide (w ∈ words a)) as [Ha | Ha].
    + rewrite (count_0 w (words b)) by now apply Hdis. rewrite tf_value_0. ring.
    + rewrite (count_0 w (words a)) by assumption. rewrite tf_value_0. ring.
Qed.

Lemma tfidf_self (raw : list R) :
  l2norm raw <> 0 -> TfIdfSimilarity_compare (normalize raw) (normalize raw) = 1.
Proof.
  intros Hn. rewrite TfIdfSimilarity_compare_dot, dot_self, <- l2norm_sqr.
  rewrite normalize_l2norm by assumption.
  assert (truthy (normalize raw) = true) as ->.
  { destruct (normalize raw) as [| x v] eqn:E; [| reflexivity].
    pose proof (normalize_l2norm raw Hn) as H1. rewrite E in H1.
    unfold l2norm in H1. simpl map in H1. rewrite fsum_nil, sqrt_0 in H1. lra. }
  simpl. rewrite Rmult_1_l. apply py_round_1.
Qed.

(** X16.  Two texts whose token sequences are permutations of each other,
    with at least one token: [compare_all] returns [jaccard = 1.0] and
    [tfidf = 1.0]; the order of the words does not count. *)
Theorem compare_all_permuted (a b : text) :
  words a ≡ₚ words b -> words a <> [] ->
  exists r, compare_all isword isspace lower a b = Ok r
            /\ jaccard r = 1 /\ tfidf r = 1.
Proof.
  intros Hperm Hne.
  destruct (compare_all_ok isword isspace lower a b) as (s & j & _ & Hj & _ & _ & ->).
  eexists. split; [reflexivity |]. simpl. split.
  - rewrite jaccard_same_words in Hj; [congruence | | assumption].
    intros w. now rewrite Hperm.
  - assert (raw_vector isword lower [a; b] b = raw_vector isword lower [a; b] a) as ->.
    { unfold raw_vector. apply map_ext. intros w. do 2 f_equal.
      unfold count. now rewrite Hperm. }
    apply tfidf_self, raw_vector_norm_pos; [left | assumption].
Qed.

(** ** StylisticFingerprint.compare as a relation between vectors *)

Lemma diffs_same_closed (eps : R) (fp : list R) :
  0 <= eps -> Forall (fun x => 0 <= x) fp ->
  list_comp (diff_of eps) (zip fp fp) = Ok (map (fun _ => 0) fp).
Proof.
  intros He. induction 1 as [| a fp Ha Hfp IH]; [reflexivity |].
  rewrite zip_cons, list_comp_cons, IH.
  assert (diff_of eps (a, a) = Ok 0) as ->; [| reflexivity].
  unfold diff_of. destruct (decide _) as [_ | Hnz]; [reflexivity |].
  pose proof (py_max_ge a a) as [Hm _].
  assert (a <> 0) as Ha0 by (intros ->; now apply Hnz).
  rewrite truediv_ok by lra. f_equal.
  replace (a - a) with 0 by lra. rewrite Rabs_R0. unfold Rdiv. ring.
Qed.

(** X26.  A non-empty vector of non-negative components compared with
    itself scores exactly [1.0], for any [epsilon >= 0] and any length. *)
Theorem StylisticFingerprint_compare_reflexive (fp : list R) (eps : R) :
  0 <= eps -> Forall (fun x => 0 <= x) fp -> fp <> [] ->
  StylisticFingerprint_compare fp fp eps = Ok 1.
Proof.
  intros He Hfp Hne. unfold StylisticFingerprint_compare.
  rewrite diffs_same_closed by assumption. rewrite bind_Ok.
  destruct fp as [| a fp]; [congruence |]. simpl truthy. cbv iota.
  rewrite truediv_ok by (apply Rgt_not_eq, lt_0_INR; simpl; lia).
  rewrite !bind_Ok, fsum_zeros. f_equal.
  replace (1 - 0 / len (map (fun _ => 0) (a :: fp))) with 1 by (unfold Rdiv; ring).
  apply py_round_1.
Qed.

Lemma StylisticFingerprint_compare_reflexive_witness :
  StylisticFingerprint_compare [0; 3; 1 / 2] [0; 3; 1 / 2] 0 = Ok 1.
Proof.
  apply StylisticFingerprint_compare_reflexive;
    [lra | repeat constructor; lra | discriminate].
Defined.

(** X27.  [compare] does not depend on the order of its two vectors:
    for all vectors, of any lengths and signs, and any [epsilon], the two
    calls return the same score or raise the same exception. *)
Theorem StylisticFingerprint_compare_symmetric (fp1 fp2 : list R) (eps : R) :
  StylisticFingerprint_compare fp1 fp2 eps = StylisticFingerprint_compare fp2 fp1 eps.
Proof. apply StylisticFingerprint_compare_sym. Qed.

End EngineExtras.

(** * Properties of the accounts *)

Section AccountsProperties.

Variable generate_password_hash : text -> nat -> text.
Variable check_password_hash : text -> text -> bool.

Lemma users_of_file (users : gmap text User) :
  (forall u x, users !! u = Some x -> username x = u) ->
  map_imap (fun u h => Some {| username := u; password_hash := h |})
           (password_hash <$> users) = users.
Proof.
  intros Hname. apply map_eq. intros u.
  rewrite map_lookup_imap, lookup_fmap.
  destruct (users !! u) as [x |] eqn:Hu; [| reflexivity].
  simpl. f_equal. specialize (Hname u x Hu). destruct x as [n h]. simpl in *. now subst.
Qed.

Lemma file_of_users (data : gmap text text) :
  password_hash <$> map_imap (fun u h => Some {| username := u; password_hash := h |}) data
  = data.
Proof.
  apply map_eq. intros u. rewrite lookup_fmap, map_lookup_imap.
  now destruct (data !! u).
Qed.

Lemma AuthService_init_saved (path : text) (fs : gmap text (gmap text text)) :
  saved (AuthService_init path fs).1 (AuthService_init path fs).2.
Proof.
  unfold AuthService_init, _load_users, saved. cbn [file_path _users].
  destruct (fs !! path) as [data |] eqn:Hf; cbn [fst snd file_path _users].
  - rewrite (right_id_L ∅ (∪)), file_of_users. split; [assumption |].
    intros u x. rewrite map_lookup_imap.
    destruct (data !! u); simpl; [| discriminate]. now intros [= <-].
  - split.
    + now rewrite lookup_insert_eq, fmap_empty.
    + intros u x. now rewrite lookup_empty.
Qed.

Lemma register_saved (self : AuthService) (fs : gmap text (gmap text text))
    (name password : text) (salt : nat) :
  saved self fs ->
  saved (register generate_password_hash self name password salt fs).1.2
        (register generate_password_hash self name password salt fs).2.
Proof.
  intros [Hfile Hname]. unfold register.
  destruct (decide _) as [Hdup | Hnew]; cbn [fst snd]; [now split |].
  unfold saved, _save_users. cbn [file_path _users]. split.
  - apply lookup_insert_eq.
  - intros u x. rewrite lookup_insert. destruct (decide (name = u)) as [-> | Hne].
    + now intros [= <-].
    + apply Hname.
Qed.

(** X17.  The service and its file stay in agreement: the constructor
    establishes it (creating the file when it is missing), [register] keeps
    it, and a service built anew on the file of a service in agreement is
    that same service, the file left as it is. *)
Theorem AuthService_persistent :
  (forall path fs, saved (AuthService_init path fs).1 (AuthService_init path fs).2)
  /\ (forall self fs name password salt,
        saved self fs ->
        saved (register generate_password_hash self name password salt fs).1.2
              (register generate_password_hash self name password salt fs).2)
  /\ (forall self fs,
        saved self fs -> AuthService_init (file_path self) fs = (self, fs)).
Proof.
  split; [apply AuthService_init_saved |]. split; [apply register_saved |].
  intros self fs [Hfile Hname]. unfold AuthService_init, _load_users.
  cbn [file_path _users]. rewrite Hfile.
  rewrite (right_id_L ∅ (∪)), users_of_file by assumption.
  now destruct self.
Qed.

Lemma register_new (self : AuthService) (fs : gmap text (gmap text text))
    (name password : text) (n : nat) :
  _users self !! name = None ->
  exists self' fs',
    register generate_password_hash self name password n fs = (true, self', fs')
    /\ _users self' !! name
       = Some {| username := name;
                 password_hash := generate_password_hash password n |}
    /\ fs' !! file_path self'
       = Some (<[name := generate_password_hash password n]>
                 (password_hash <$> _users self)).
Proof.
  intros Hnew. unfold register.
  destruct (decide _) as [[x Hx] | _]; [congruence |].
  do 2 eexists. split; [reflexivity |]. cbn [_users file_path]. split.
  - apply lookup_insert_eq.
  - unfold _save_users. cbn [file_path _users].
    now rewrite lookup_insert_eq, fmap_insert.
Qed.

(** X18.  When [check_password_hash] accepts what [generate_password_hash]
    makes, registering a new name succeeds and the same name and password
    then authenticate. *)
Theorem register_then_authenticate (self : AuthService)
    (fs : gmap text (gmap text text)) (name password : text) (salt : nat) :
  (forall p s, check_password_hash (generate_password_hash p s) p = true) ->
  _users self !! name = None ->
  exists self' fs',
    register generate_password_hash self name password salt fs = (true, self', fs')
    /\ authenticate check_password_hash self' name password = true
    /\ fs' !! file_path self'
       = Some (<[name := generate_password_hash password salt]>
                 (password_hash <$> _users self)).
Proof.
  intros Hcheck Hnew.
  destruct (register_new self fs name password salt Hnew) as (self' & fs' & E & Hu & Hf).
  exists self', fs'. split; [exact E |]. split; [| exact Hf].
  unfold authenticate. rewrite Hu. apply Hcheck.
Qed.

(** X19.  A name that is taken is refused and nothing changes, neither
    the service nor the file; and no call of [register] changes the record
    of a user registered before, so the passwords that authenticated that
    user still do, and only they. *)
Theorem register_keeps_accounts (self : AuthService)
    (fs : gmap text (gmap text text)) (name password : text) (salt : nat) :
  (is_Some (_users self !! name) ->
   register generate_password_hash self name password salt fs = (false, self, fs))
  /\ (forall name0 x,
        _users self !! name0 = Some x ->
        _users (register generate_password_hash self name password salt fs).1.2 !! name0
        = Some x
        /\ forall q,
             authenticate check_password_hash
               (register generate_password_hash self name password salt fs).1.2 name0 q
             = authenticate check_password_hash self name0 q).
Proof.
  split.
  - intros Hdup. unfold register. now destruct (decide _).
  - intros name0 x Hx.
    assert (_users (register generate_password_hash self name password salt fs).1.2
              !! name0 = Some x) as Hkeep.
    { unfold register. destruct (decide _) as [Hdup | Hnew]; cbn [fst snd _users];
        [assumption |].
      rewrite lookup_insert_ne; [assumption |]. intros ->. apply Hnew. eauto. }
    split; [assumption |]. intros q. unfold authenticate. now rewrite Hkeep, Hx.
Qed.

(** X20.  A name that is not registered never authenticates, whatever the
    password and whatever [check_password_hash] answers; in particular not
    before the first registration on a fresh file. *)
Theorem authenticate_unknown (path name password : text)
    (fs : gmap text (gmap text text)) :
  fs !! path = None ->
  authenticate check_password_hash (AuthService_init path fs).1 name password = false
  /\ (AuthService_init path fs).2 !! path = Some ∅.
Proof.
  intros Hf. unfold AuthService_init, _load_users. cbn [file_path _users].
  rewrite Hf. cbn [fst snd]. split.
  - unfold authenticate. cbn [_users]. now rewrite lookup_empty.
  - apply lookup_insert_eq.
Qed.

End AccountsProperties.

(** * Properties of the web application *)

Lemma POST_not_OPTIONS : POST <> OPTIONS.
Proof. discriminate. Qed.

Lemma GET_not_OPTIONS : GET <> OPTIONS.
Proof. discriminate. Qed.

Lemma GET_not_POST : GET <> POST.
Proof. discriminate. Qed.

Section WebProperties.

Variable isword : char -> bool.
Variable isspace : char -> bool.
Variable lower : text -> text.
Variable generate_password_hash : text -> nat -> text.
Variable check_password_hash : text -> text -> bool.
Variable decode : list Byte.byte -> text.

Local Abbreviation app_handle :=
  (handle isword isspace lower generate_password_hash check_password_hash decode).
Local Abbreviation app_serve :=
  (serve isword isspace lower generate_password_hash check_password_hash decode).

Lemma register_cases (self : AuthService) (fs : gmap text (gmap text text))
    (name password : text) (n : nat) :
  (is_Some (_users self !! name)
   /\ register generate_password_hash self name password n fs = (false, self, fs))
  \/ (_users self !! name = None
      /\ exists self' fs',
           register generate_password_hash self name password n fs = (true, self', fs')
           /\ is_Some (_users self' !! name)).
Proof.
  unfold register. destruct (decide _) as [Hdup | Hnew]; [left; now split | right].
  split; [now apply eq_None_not_Some |].
  do 2 eexists. split; [reflexivity |]. cbn [_users]. rewrite lookup_insert_eq. eauto.
Qed.

Lemma register_view_sound (req : Request) (env : Env) (st : App) :
  sound st -> sound (register_view generate_password_hash req env st).2.
Proof.
  intros Hst. unfold register_view.
  destruct (decide _) as [_ | _]; [| exact Hst].
  destruct (form req !! key_email) as [email |]; [| exact Hst].
  destruct (form req !! key_password) as [password |]; [| exact Hst].
  destruct Hst as [Huser Hsaved].
  pose proof (register_saved generate_password_hash (auth_service st) (disk st)
                email password (salt env) Hsaved) as Hs.
  destruct (register_cases (auth_service st) (disk st) email password (salt env))
    as [[_ E] | (_ & self' & fs' & E & Hin)]; rewrite E in Hs |- *; cbn [fst snd] in *.
  - split; assumption.
  - split; [| assumption]. cbn [session auth_service]. intros u.
    rewrite lookup_insert_eq. now intros [= <-].
Qed.

Lemma login_view_sound (req : Request) (env : Env) (st : App) :
  sound st -> sound (login_view check_password_hash req env st).2.
Proof.
  intros Hst. unfold login_view.
  destruct (decide _) as [_ | _]; [| exact Hst].
  destruct (form req !! key_email) as [email |]; [| exact Hst].
  destruct (form req !! key_password) as [password |]; [| exact Hst].
  destruct (authenticate _ _ _ _) eqn:Hauth; [| exact Hst].
  destruct Hst as [Huser Hsaved]. split; [| assumption].
  cbn [snd session auth_service]. intros u. rewrite lookup_insert_eq. intros [= <-].
  unfold authenticate in Hauth. destruct (_users (auth_service st) !! email); [eauto | discriminate].
Qed.

Lemma compare_view_state (req : Request) (env : Env) (st : App) :
  (compare_view isword isspace lower decode req env st).2 = st.
Proof.
  unfold compare_view, login_required, compare_body.
  destruct (decide (session st !! key_user = None)); [reflexivity |].
  destruct (decide (method req = POST)); [| reflexivity].
  now destruct (compare_all _ _ _ _ _).
Qed.

Lemma handle_sound (rt : Route) (req : Request) (env : Env) (st : App) :
  sound st -> sound (app_handle rt req env st).2.
Proof.
  intros Hst. unfold handle.
  destruct (decide _) as [_ | _]; [exact Hst |].
  destruct (allowed rt (method req)); [| exact Hst].
  destruct rt.
  - now apply register_view_sound.
  - now apply login_view_sound.
  - destruct Hst as [Huser Hsaved]. split; [| assumption].
    cbn [snd logout_view session]. intros u. now rewrite lookup_delete_eq.
  - now rewrite compare_view_state.
Qed.

Lemma serve_sound (reqs : list (Route * Request * Env)) (st : App) :
  sound st -> sound (app_serve reqs st).
Proof.
  revert st. induction reqs as [| r reqs IH]; intros st Hst; [exact Hst |].
  apply IH. now apply handle_sound.
Qed.

(** X21.  After any sequence of requests, from the start of the
    application on any disk: a session that holds a user holds a registered
    user, and the file of the accounts holds exactly the hashes of the
    service. *)
Theorem serve_keeps_sound (fs : gmap text (gmap text text))
    (reqs : list (Route * Request * Env)) :
  let st := app_serve reqs (start fs) in
  (forall u, session st !! key_user = Some u -> is_Some (_users (auth_service st) !! u))
  /\ disk st !! users_json = Some (password_hash <$> _users (auth_service st)).
Proof.
  assert (sound (start fs)) as H0.
  { split; [intros u; cbn [start session]; now rewrite lookup_empty |].
    apply AuthService_init_saved. }
  assert (forall rs st, file_path (auth_service st) = users_json ->
                        file_path (auth_service (app_serve rs st)) = users_json) as Hpath.
  { induction rs as [| r rs IH]; intros st Hp; [exact Hp |]. apply IH.
    unfold handle. destruct (decide _); [exact Hp |].
    destruct (allowed _ _); [| exact Hp]. destruct r.1.1.
    - unfold register_view. destruct (decide _); [| exact Hp].
      destruct (form _ !! key_email); [| exact Hp].
      destruct (form _ !! key_password); [| exact Hp].
      unfold register. now destruct (decide _).
    - unfold login_view. destruct (decide _); [| exact Hp].
      destruct (form _ !! key_email); [| exact Hp].
      destruct (form _ !! key_password); [| exact Hp].
      now destruct (authenticate _ _ _ _).
    - exact Hp.
    - now rewrite compare_view_state. }
  intros st. destruct (serve_sound reqs (start fs) H0) as [Huser [Hfile _]].
  split; [exact Huser |]. fold st in Hfile.
  rewrite <- Hfile. f_equal. symmetry. apply Hpath.
  unfold start, AuthService_init, _load_users. cbn [auth_service file_path].
  now destruct (fs !! users_json).
Qed.

Lemma handle_POST (rt : Route) (req : Request) (env : Env) (st : App) :
  method req = POST -> rt <> route_logout ->
  app_handle rt req env st
  = match rt with
    | route_register => register_view generate_password_hash req env st
    | route_login => login_view check_password_hash req env st
    | route_logout => logout_view req env st
    | route_compare => compare_view isword isspace lower decode req env st
    end.
Proof.
  intros Hm Hrt. unfold handle. rewrite Hm.
  destruct (decide (POST = OPTIONS)) as [E | _]; [discriminate E |].
  now destruct rt.
Qed.

Lemma handle_GET (rt : Route) (req : Request) (env : Env) (st : App) :
  method req = GET ->
  app_handle rt req env st
  = match rt with
    | route_register => register_view generate_password_hash req env st
    | route_login => login_view check_password_hash req env st
    | route_logout => logout_view req env st
    | route_compare => compare_view isword isspace lower decode req env st
    end.
Proof.
  intros Hm. unfold handle. rewrite Hm.
  destruct (decide (GET = OPTIONS)) as [E | _]; [discriminate E |].
  now destruct rt.
Qed.

(** X22.  The route ['/']: without a user in the session a [GET] or a
    [POST] is redirected to the login and nothing is compared; with a user,
    a [POST] renders a result whose three scores lie in [[0, 1]] together
    with the time stamp, whatever fields and files the request has, and a
    [GET] renders the page without a result.  The state is left as it is. *)
Theorem compare_route (req : Request) (env : Env) (st : App) :
  (method req = GET \/ method req = POST ->
   session st !! key_user = None ->
   app_handle route_compare req env st = (redirect "login", st))
  /\ (method req = POST ->
      session st !! key_user <> None ->
      exists r,
        app_handle route_compare req env st
        = (render_index (Some (r, generated env)), st)
        /\ 0 <= stylistic r <= 1 /\ 0 <= jaccard r <= 1 /\ 0 <= tfidf r <= 1)
  /\ (method req = GET ->
      session st !! key_user <> None ->
      app_handle route_compare req env st = (render_index None, st)).
Proof.
  split; [| split].
  - intros [Hm | Hm] Hnone;
      [rewrite handle_GET by assumption | rewrite handle_POST by (assumption || discriminate)];
      unfold compare_view, login_required; now destruct (decide _).
  - intros Hm Huser. rewrite handle_POST by (assumption || discriminate).
    unfold compare_view, login_required, compare_body.
    destruct (decide (session st !! key_user = None)); [contradiction |].
    destruct (decide (method req = POST)); [| contradiction].
    set (text1 := submitted decode _ _ req). set (text2 := submitted decode _ _ req).
    destruct (compare_all_ok isword isspace lower text1 text2)
      as (s & j & _ & _ & Hs & Hj & ->).
    eexists. split; [reflexivity |]. cbn [stylistic jaccard tfidf].
    split; [assumption |]. split; [assumption |].
    apply TfIdfSimilarity_compare_unit; apply raw_vector_nonneg.
  - intros Hm Huser. rewrite handle_GET by assumption.
    unfold compare_view, login_required, compare_body.
    destruct (decide (session st !! key_user = None)); [contradiction |].
    rewrite Hm. now destruct (decide (GET = POST)) as [E | _]; [discriminate E |].
Qed.

(** X23.  An attempt that fails changes nothing: a [POST] to register a
    name that is taken answers with the error of the page and does not log
    in, and a [POST] to log in with a name and a password that do not
    authenticate answers with one and the same error, whether the name is
    unknown or the password is wrong. *)
Theorem failed_attempt_changes_nothing (req : Request) (env : Env) (st : App)
    (email password : text) :
  method req = POST ->
  form req !! key_email = Some email ->
  form req !! key_password = Some password ->
  (is_Some (_users (auth_service st) !! email) ->
   app_handle route_register req env st = (render_register (Some user_exists), st))
  /\ (authenticate check_password_hash (auth_service st) email password = false ->
      app_handle route_login req env st = (render_login (Some bad_credentials), st)).
Proof.
  intros Hm He Hp. split.
  - intros Hdup. rewrite handle_POST by (assumption || discriminate).
    unfold register_view. destruct (decide _); [| contradiction].
    rewrite He, Hp. unfold register. destruct (decide _); [| contradiction].
    now destruct st.
  - intros Hauth. rewrite handle_POST by (assumption || discriminate).
    unfold login_view. destruct (decide _); [| contradiction].
    now rewrite He, Hp, Hauth.
Qed.

(** X24.  Logging out: a [GET] of ['/logout'] empties the session of its
    user, logged in or not, and the next request for ['/'] is redirected to
    the login; a [POST] to ['/logout'] is refused and logs nobody out. *)
Theorem logout_route (req next : Request) (env env' : Env) (st : App) :
  (method req = GET ->
   session (app_handle route_logout req env st).2 !! key_user = None
   /\ (method next = GET \/ method next = POST ->
       (app_handle route_compare next env' (app_handle route_logout req env st).2).1
       = redirect "login"))
  /\ (method req = POST ->
      app_handle route_logout req env st = (method_not_allowed, st)).
Proof.
  split.
  - intros Hm. rewrite handle_GET by assumption. cbn [logout_view snd session].
    assert (delete key_user (session st) !! key_user = None) as Hout
      by apply lookup_delete_eq.
    split; [exact Hout |].
    intros [Hn | Hn];
      [rewrite handle_GET by assumption | rewrite handle_POST by (assumption || discriminate)];
      unfold compare_view, login_required; cbn [session];
      now destruct (decide _).
  - intros Hm. unfold handle. rewrite Hm.
    now destruct (decide (POST = OPTIONS)) as [E | _]; [discriminate E |].
Qed.

(** X25.  When [check_password_hash] accepts what [generate_password_hash]
    makes: registering a new name logs it in; after logging out, logging in
    with the same name and password succeeds and the session holds the
    name again. *)
Theorem register_logout_login (reg out log : Request) (env1 env2 env3 : Env)
    (st : App) (email password : text) :
  (forall p s, check_password_hash (generate_password_hash p s) p = true) ->
  method reg = POST -> form reg !! key_email = Some email ->
  form reg !! key_password = Some password ->
  _users (auth_service st) !! email = None ->
  method out = GET ->
  method log = POST -> form log !! key_email = Some email ->
  form log !! key_password = Some password ->
  let r1 := app_handle route_register reg env1 st in
  let r2 := app_handle route_logout out env2 r1.2 in
  let r3 := app_handle route_login log env3 r2.2 in
  r1.1 = redirect "compare" /\ session r1.2 !! key_user = Some email
  /\ session r2.2 !! key_user = None
  /\ r3.1 = redirect "compare" /\ session r3.2 !! key_user = Some email.
Proof.
  intros Hcheck Hm1 He1 Hp1 Hnew Hm2 Hm3 He3 Hp3 r1 r2 r3.
  destruct (register_new generate_password_hash (auth_service st) (disk st)
              email password (salt env1) Hnew) as (self' & fs' & Hreg & Hu & _).
  assert (authenticate check_password_hash self' email password = true) as Hauth
    by (unfold authenticate; rewrite Hu; apply Hcheck).
  assert (r1 = (redirect "compare",
                {| session := <[key_user := email]> (session st);
                   auth_service := self'; disk := fs' |})) as E1.
  { unfold r1. rewrite handle_POST by (assumption || discriminate).
    unfold register_view. destruct (decide _); [| contradiction].
    now rewrite He1, Hp1, Hreg. }
  assert (r2 = (redirect "login",
                {| session := delete key_user (<[key_user := email]> (session st));
                   auth_service := self'; disk := fs' |})) as E2.
  { unfold r2. rewrite handle_GET by assumption. now rewrite E1. }
  assert (r3 = (redirect "compare",
                {| session := <[key_user := email]>
                                (delete key_user (<[key_user := email]> (session st)));
                   auth_service := self'; disk := fs' |})) as E3.
  { unfold r3. rewrite handle_POST by (assumption || discriminate).
    unfold login_view. destruct (decide _); [| contradiction].
    rewrite He3, Hp3, E2. cbn [snd auth_service session disk]. now rewrite Hauth. }
  rewrite E1, E2, E3. cbn [fst snd session].
  rewrite !lookup_insert_eq, lookup_delete_eq. tauto.
Qed.

End WebProperties.

(** * Instances of the further properties *)

Lemma JaccardSimilarity_compute_disjoint_witness :
  JaccardSimilarity_compute Ascii.isword Ascii.lower
    (text_of_string "Cats purr") (text_of_string "dogs bark") = Ok 0.
Proof.
  apply JaccardSimilarity_compute_disjoint.
  intros w Ha Hb. revert Ha Hb.
  change (w ∈ Ascii.words "Cats purr" -> w ∈ Ascii.words "dogs bark" -> False).
  rewrite !list_elem_of_In. vm_compute.
  intros [<- | [<- | []]] [H | [H | []]]; discriminate H.
Defined.

Lemma JaccardSimilarity_compute_same_words_witness :
  JaccardSimilarity_compute Ascii.isword Ascii.lower
    (text_of_string "a b") (text_of_string "B, a! A?") = Ok 1.
Proof.
  apply JaccardSimilarity_compute_same_words.
  - intros w. change (w ∈ Ascii.words "a b" <-> w ∈ Ascii.words "B, a! A?").
    rewrite !list_elem_of_In. vm_compute. tauto.
  - vm_compute. discriminate.
Defined.

Lemma idf_two_texts_witness :
  exists self,
    TfIdfSimilarity_init Ascii.isword Ascii.lower
      [text_of_string "Cats run."; text_of_string "Dogs run."] = Ok self
    /\ idf self !! text_of_string "cats" = Some (ln (3 / 2) + 1)
    /\ idf self !! text_of_string "run" = Some 1.
Proof.
  assert (forall w, bool_decide (w ∈ build_vocab Ascii.isword Ascii.lower
                      [text_of_string "Cats run."; text_of_string "Dogs run."]) = true ->
                    w ∈ build_vocab Ascii.isword Ascii.lower
                      [text_of_string "Cats run."; text_of_string "Dogs run."]) as Hin
    by (intros w Hw; now apply bool_decide_eq_true in Hw).
  destruct (idf_two_texts Ascii.isword Ascii.lower _ _ _
              (Hin (text_of_string "cats") eq_refl)) as (self & Hinit & Hcats).
  destruct (idf_two_texts Ascii.isword Ascii.lower _ _ _
              (Hin (text_of_string "run") eq_refl)) as (self' & Hinit' & Hrun).
  rewrite Hinit in Hinit'. injection Hinit' as <-.
  exists self. split; [exact Hinit |]. split.
  - clear Hrun. rewrite Hcats. destruct (decide _) as [[_ Hb] | _]; [| reflexivity].
    exfalso. apply list_elem_of_In in Hb. vm_compute in Hb.
    destruct Hb as [H | [H | []]]; discriminate H.
  - clear Hcats. rewrite Hrun. destruct (decide _) as [_ | Hn]; [reflexivity |].
    exfalso. apply Hn. split; apply (bool_decide_unpack _); vm_compute; exact I.
Defined.

Lemma compare_all_disjoint_witness :
  exists r, Ascii.compare "Cats purr" "dogs bark" = Ok r
            /\ jaccard r = 0 /\ tfidf r = 0.
Proof.
  apply compare_all_disjoint.
  intros w Ha Hb. revert Ha Hb.
  change (w ∈ Ascii.words "Cats purr" -> w ∈ Ascii.words "dogs bark" -> False).
  rewrite !list_elem_of_In. vm_compute.
  intros [<- | [<- | []]] [H | [H | []]]; discriminate H.
Defined.

Lemma compare_all_permuted_witness :
  exists r, Ascii.compare "Run, cats." "Cats run" = Ok r
            /\ jaccard r = 1 /\ tfidf r = 1.
Proof.
  apply compare_all_permuted.
  - change (Ascii.words "Run, cats." ≡ₚ Ascii.words "Cats run").
    assert (Ascii.words "Run, cats." = [text_of_string "run"; text_of_string "cats"]) as ->
      by (vm_compute; reflexivity).
    assert (Ascii.words "Cats run" = [text_of_string "cats"; text_of_string "run"]) as ->
      by (vm_compute; reflexivity).
    apply Permutation_swap.
  - vm_compute. discriminate.
Defined.

Lemma findall_words_maximal_witness :
  findall_words Ascii.isword (text_of_string "ab")
  = [text_of_string "ab"]
  /\ findall_words Ascii.isword (text_of_string "ab" ++ 32%N :: text_of_string "cd")
     = findall_words Ascii.isword (text_of_string "ab")
       ++ findall_words Ascii.isword (text_of_string "cd").
Proof.
  destruct (findall_words_maximal Ascii.isword) as [Hone Hsep]. split.
  - apply Hone; [discriminate | repeat constructor].
  - apply Hsep. reflexivity.
Defined.

Lemma re_split_pieces_witness :
  re_split is_sentence_end (text_of_string "no end") = [text_of_string "no end"]
  /\ re_split is_sentence_end (text_of_string "Hi" ++ 33%N :: text_of_string " Bye")
     = re_split is_sentence_end (text_of_string "Hi")
       ++ re_split is_sentence_end (text_of_string " Bye").
Proof.
  destruct re_split_pieces as (_ & Hnone & Hsep). split.
  - apply Hnone. repeat constructor.
  - apply Hsep. reflexivity.
Defined.

Lemma strip_spec_witness : Ascii.isspace 97%N = false /\ Ascii.isspace 98%N = false.
Proof.
  destruct (strip_spec Ascii.isspace (text_of_string "  a b ")) as (_ & _ & _ & _ & _ & Hh & Hl).
  split; [apply Hh | apply Hl]; vm_compute; reflexivity.
Defined.

Lemma sentences_of_spec_witness :
  Ascii.isspace 72%N = false
  /\ (length (sentences_of Ascii.isspace (text_of_string "Hi there. ")) <= 2)%nat.
Proof.
  destruct (sentences_of_spec Ascii.isspace (text_of_string "Hi there. ")) as [Hall Hlen].
  split; [| exact Hlen].
  assert (sentences_of Ascii.isspace (text_of_string "Hi there. ")
          = [text_of_string "Hi there"]) as E by (vm_compute; reflexivity).
  rewrite E in Hall. apply Forall_inv in Hall. destruct Hall as (_ & _ & Hh & _).
  apply Hh. reflexivity.
Defined.

Lemma demo_check_hash (p : text) (n : nat) : Demo.check (Demo.hash p n) p = true.
Proof. unfold Demo.check, Demo.hash. now apply bool_decide_eq_true. Defined.

Lemma AuthService_persistent_witness :
  let r := register Demo.hash (AuthService_init users_json ∅).1 Demo.ann Demo.secret 0
                    (AuthService_init users_json ∅).2 in
  AuthService_init (file_path r.1.2) r.2 = (r.1.2, r.2).
Proof.
  destruct (AuthService_persistent Demo.hash) as (Hinit & Hreg & Hrestart).
  intros r. apply Hrestart. apply Hreg. apply Hinit.
Defined.

Lemma register_then_authenticate_witness :
  exists self' fs',
    register Demo.hash {| file_path := users_json; _users := ∅ |}
             Demo.ann Demo.secret 0 ∅ = (true, self', fs')
    /\ authenticate Demo.check self' Demo.ann Demo.secret = true.
Proof.
  destruct (register_then_authenticate Demo.hash Demo.check
              {| file_path := users_json; _users := ∅ |} ∅ Demo.ann Demo.secret 0
              demo_check_hash (lookup_empty _)) as (self' & fs' & E & Hauth & _).
  exists self', fs'. split; [exact E | exact Hauth].
Defined.

Lemma register_keeps_accounts_witness :
  register Demo.hash Demo.service Demo.ann (text_of_string "other") 1 ∅
  = (false, Demo.service, ∅)
  /\ authenticate Demo.check
       (register Demo.hash Demo.service (text_of_string "bob") Demo.secret 2 ∅).1.2
       Demo.ann Demo.secret
     = authenticate Demo.check Demo.service Demo.ann Demo.secret.
Proof.
  split.
  - apply (register_keeps_accounts Demo.hash Demo.check).
    exists {| username := Demo.ann; password_hash := Demo.secret |}.
    apply lookup_singleton_eq.
  - apply (proj2 (register_keeps_accounts Demo.hash Demo.check Demo.service ∅
                    (text_of_string "bob") Demo.secret 2)
             Demo.ann {| username := Demo.ann; password_hash := Demo.secret |}).
    apply lookup_singleton_eq.
Defined.

Lemma authenticate_unknown_witness :
  authenticate Demo.check (AuthService_init users_json ∅).1 Demo.ann Demo.secret = false
  /\ (AuthService_init users_json ∅).2 !! users_json = Some ∅.
Proof. apply authenticate_unknown. apply lookup_empty. Defined.

Lemma serve_keeps_sound_witness :
  is_Some (_users (auth_service
                     (Demo.serve [(route_register, Demo.credentials, Demo.env0)]
                                 (start ∅)))
           !! Demo.ann).
Proof.
  destruct (serve_keeps_sound Ascii.isword Ascii.isspace Ascii.lower
              Demo.hash Demo.check Demo.decode ∅
              [(route_register, Demo.credentials, Demo.env0)]) as [Huser _].
  apply Huser. vm_compute. reflexivity.
Defined.

Lemma compare_route_witness :
  Demo.handle route_compare Demo.visit Demo.env0 (start ∅) = (redirect "login", start ∅)
  /\ (exists r,
        Demo.handle route_compare Demo.credentials Demo.env0 Demo.logged_in
        = (render_index (Some (r, generated Demo.env0)), Demo.logged_in)
        /\ 0 <= stylistic r <= 1 /\ 0 <= jaccard r <= 1 /\ 0 <= tfidf r <= 1)
  /\ Demo.handle route_compare Demo.visit Demo.env0 Demo.logged_in
     = (render_index None, Demo.logged_in).
Proof.
  split; [| split].
  - apply (compare_route Ascii.isword Ascii.isspace Ascii.lower
             Demo.hash Demo.check Demo.decode); [left; reflexivity | apply lookup_empty].
  - apply (compare_route Ascii.isword Ascii.isspace Ascii.lower
             Demo.hash Demo.check Demo.decode); [reflexivity |].
    unfold Demo.logged_in. cbn [session]. now rewrite lookup_singleton_eq.
  - apply (compare_route Ascii.isword Ascii.isspace Ascii.lower
             Demo.hash Demo.check Demo.decode); [reflexivity |].
    unfold Demo.logged_in. cbn [session]. now rewrite lookup_singleton_eq.
Defined.

Lemma failed_attempt_changes_nothing_witness :
  Demo.handle route_register Demo.credentials Demo.env0 Demo.logged_in
  = (render_register (Some user_exists), Demo.logged_in)
  /\ Demo.handle route_login Demo.credentials Demo.env0 (start ∅)
     = (render_login (Some bad_credentials), start ∅).
Proof.
  split.
  - apply (proj1 (failed_attempt_changes_nothing Ascii.isword Ascii.isspace Ascii.lower
                    Demo.hash Demo.check Demo.decode Demo.credentials Demo.env0
                    Demo.logged_in Demo.ann Demo.secret eq_refl eq_refl eq_refl)).
    exists {| username := Demo.ann; password_hash := Demo.secret |}.
    apply lookup_singleton_eq.
  - apply (proj2 (failed_attempt_changes_nothing Ascii.isword Ascii.isspace Ascii.lower
                    Demo.hash Demo.check Demo.decode Demo.credentials Demo.env0
                    (start ∅) Demo.ann Demo.secret eq_refl eq_refl eq_refl)).
    reflexivity.
Defined.

Lemma logout_route_witness :
  session (Demo.handle route_logout Demo.visit Demo.env0 Demo.logged_in).2 !! key_user = None
  /\ (Demo.handle route_compare Demo.credentials Demo.env0
        (Demo.handle route_logout Demo.visit Demo.env0 Demo.logged_in).2).1
     = redirect "login"
  /\ Demo.handle route_logout Demo.credentials Demo.env0 Demo.logged_in
     = (method_not_allowed, Demo.logged_in).
Proof.
  destruct (logout_route Ascii.isword Ascii.isspace Ascii.lower
              Demo.hash Demo.check Demo.decode Demo.visit Demo.credentials
              Demo.env0 Demo.env0 Demo.logged_in) as [Hget _].
  destruct (Hget eq_refl) as [Hout Hnext].
  split; [exact Hout |]. split; [apply Hnext; right; reflexivity |].
  apply (logout_route Ascii.isword Ascii.isspace Ascii.lower
           Demo.hash Demo.check Demo.decode Demo.credentials Demo.visit
           Demo.env0 Demo.env0 Demo.logged_in). reflexivity.
Defined.

Lemma register_logout_login_witness :
  let r1 := Demo.handle route_register Demo.credentials Demo.env0 (start ∅) in
  let r2 := Demo.handle route_logout Demo.visit Demo.env0 r1.2 in
  let r3 := Demo.handle route_login Demo.credentials Demo.env0 r2.2 in
  r1.1 = redirect "compare" /\ session r1.2 !! key_user = Some Demo.ann
  /\ session r2.2 !! key_user = None
  /\ r3.1 = redirect "compare" /\ session r3.2 !! key_user = Some Demo.ann.
Proof.
  apply (register_logout_login Ascii.isword Ascii.isspace Ascii.lower
           Demo.hash Demo.check Demo.decode Demo.credentials Demo.visit Demo.credentials
           Demo.env0 Demo.env0 Demo.env0 (start ∅) Demo.ann Demo.secret);
    try reflexivity.
  apply demo_check_hash.
Defined.
